(** * slack-chat-api: identifier resolution and message delivery

    A shallow embedding of
      - internal/client/channel_resolver.go  (ResolveChannel, IsChannelID,
        lookupChannelByName),
      - the user resolver of package client  (UserResolver, Resolve,
        ResolveMentions),
      - internal/cmd/messages/send.go        (runSend, uploadFiles),
    together with the properties stated about them.

    Go strings are byte sequences: they are modelled as [string] (a list of
    [ascii], one per byte).  Calls to the Slack API, to the file system and
    to standard input are modelled as oracles; every call is recorded in a
    trace so that "no network call" and "at most one lookup" are statements
    about that trace. *)

From Stdlib Require Import ZArith Ascii Lia Bool DecimalString.
From Stdlib Require String.
From stdpp Require Import base option list strings gmap.

(** ** Bytes, runes and the [range] loop over a string *)

Module Utf8.
Local Open Scope Z_scope.

(** The numeric value of a byte. *)
Definition byteZ (c : ascii) : Z := Z.of_N (N_of_ascii c).

(** U+FFFD, produced by [range] for every byte that does not start a
    well-formed UTF-8 sequence. *)
Definition RuneError : Z := 65533.

(** For a leading byte [>= 0x80]: the length of the sequence it opens and
    the admissible interval of the second byte (Go's [first] and
    [acceptRanges] tables); [None] for a byte that cannot lead. *)
Definition lead_info (s0 : Z) : option (nat * Z * Z) :=
  if s0 <? 194 then None
  else if s0 <=? 223 then Some (2%nat, 128, 191)
  else if s0 =? 224 then Some (3%nat, 160, 191)
  else if s0 <=? 236 then Some (3%nat, 128, 191)
  else if s0 =? 237 then Some (3%nat, 128, 159)
  else if s0 <=? 239 then Some (3%nat, 128, 191)
  else if s0 =? 240 then Some (4%nat, 144, 191)
  else if s0 <=? 243 then Some (4%nat, 128, 191)
  else if s0 =? 244 then Some (4%nat, 128, 143)
  else None.

Definition is_cont (b : Z) : bool := (128 <=? b) && (b <=? 191).

(** [utf8.DecodeRuneInString]: the first code point of [s] and the number
    of bytes it occupies ([0] only for the empty string). *)
Definition DecodeRuneInString (s : string) : Z * nat :=
  match s with
  | EmptyString => (RuneError, 0%nat)
  | String c0 t =>
    let s0 := byteZ c0 in
    if s0 <? 128 then (s0, 1%nat)
    else
      match lead_info s0 with
      | None => (RuneError, 1%nat)
      | Some (sz, lo, hi) =>
        match t with
        | EmptyString => (RuneError, 1%nat)
        | String c1 t1 =>
          let s1 := byteZ c1 in
          if (s1 <? lo) || (hi <? s1) then (RuneError, 1%nat)
          else if (sz <=? 2)%nat
          then ((s0 mod 32) * 64 + s1 mod 64, 2%nat)
          else
            match t1 with
            | EmptyString => (RuneError, 1%nat)
            | String c2 t2 =>
              let s2 := byteZ c2 in
              if negb (is_cont s2) then (RuneError, 1%nat)
              else if (sz <=? 3)%nat
              then ((s0 mod 16) * 4096 + (s1 mod 64) * 64 + s2 mod 64,
                    3%nat)
              else
                match t2 with
                | EmptyString => (RuneError, 1%nat)
                | String c3 _ =>
                  let s3 := byteZ c3 in
                  if negb (is_cont s3) then (RuneError, 1%nat)
                  else ((s0 mod 8) * 262144 + (s1 mod 64) * 4096
                        + (s2 mod 64) * 64 + s3 mod 64, 4%nat)
                end
            end
        end
      end
  end.

(** [s[n:]] *)
Fixpoint drop_bytes (n : nat) (s : string) : string :=
  match n, s with
  | O, _ => s
  | S n', String _ t => drop_bytes n' t
  | S _, EmptyString => EmptyString
  end.

End Utf8.

(** ** Values shared by the packages *)

(** A Go [error] is represented by its message. *)
Definition error := string.

(** The result of a Go function returning [(T, error)]. *)
Inductive result (A : Type) : Type :=
| Ok (a : A)
| Err (e : error).
Arguments Ok {A} a.
Arguments Err {A} e.

(** Decoded JSON ([interface{}] trees as produced by encoding/json). *)
#[local] Unset Elimination Schemes.
Inductive JValue : Type :=
| JNull
| JBool (b : bool)
| JNum (n : Z)
| JStr (s : string)
| JArr (items : list JValue)
| JObj (fields : list (string * JValue)).
#[local] Set Elimination Schemes.

Record Channel := { ch_ID : string; ch_Name : string }.

Record UserProfile := { DisplayName : string }.
Record User := {
  ID : string;
  Name : string;
  RealName : string;
  Profile : UserProfile
}.

Record Message := { TS : string; msg_Channel : string }.

Record UploadURLResponse := { UploadURL : string; FileID : string }.

Record CompleteUploadExternalFile := {
  cue_ID : string;
  cue_Title : string
}.

(** An argument of [output.Printf]. *)
Inductive Arg : Type :=
| AStr (s : string)
| AInt (n : Z).

(** Everything the program does to the outside world, in the order in which
    it does it.  The user-info call carries the answer it got. *)
Inductive Event : Type :=
| EvListChannels (types : string) (excludeArchived : bool) (limit : Z)
| EvGetUserInfo (id : string) (answer : result User)
| EvSendMessage (channel text threadTS : string) (blocks : list JValue)
    (unfurl : bool)
| EvGetUploadURLExternal (filename : string) (size : Z)
| EvUploadFileToURL (url path : string)
| EvCompleteUploadExternal (files : list CompleteUploadExternalFile)
    (channel threadTS comment : string)
| EvStat (path : string)
| EvOpen (path : string)
| EvReadFile (path : string)
| EvReadStdin
| EvNewClient
| EvPrintf (format : string) (args : list Arg)
| EvPrintJSON (msg : Message).

Abbreviation Trace := (list Event).

(** Calls that reach the Slack platform. *)
Definition is_network (e : Event) : bool :=
  match e with
  | EvListChannels _ _ _ | EvGetUserInfo _ _ | EvSendMessage _ _ _ _ _
  | EvGetUploadURLExternal _ _ | EvUploadFileToURL _ _
  | EvCompleteUploadExternal _ _ _ _ => true
  | _ => false
  end.

(** Reads of a blocks source (blocks file or standard input). *)
Definition is_source_read (e : Event) : bool :=
  match e with
  | EvReadFile _ | EvReadStdin => true
  | _ => false
  end.

(** The platform API transport behind [*client.Client].  An answer may
    depend on everything that happened before the call. *)
Record Client := {
  ListChannels : Trace -> string -> bool -> Z -> result (list Channel);
  GetUserInfo : Trace -> string -> result User;
  SendMessage :
    Trace -> string -> string -> string -> list JValue -> bool ->
    result Message;
  GetUploadURLExternal : Trace -> string -> Z -> result UploadURLResponse;
  UploadFileToURL : Trace -> string -> string -> option error;
  CompleteUploadExternal :
    Trace -> list CompleteUploadExternalFile -> string -> string -> string ->
    option error
}.

(** Functions of the Go library and of packages of the repository that the
    modelled code calls (strings, os, bufio, encoding/json, path/filepath,
    internal/validate, internal/output, client.New, client.WrapError). *)
Record Env := {
  strings_ToLower : string -> string;
  strings_EqualFold : string -> string -> bool;
  validate_Timestamp : string -> option error;
  validate_NormalizeTimestamp : string -> string;
  stdin_Scan : Trace -> result (list string);
  os_ReadFile : Trace -> string -> result string;
  os_Stat : Trace -> string -> result Z;
  os_Open : Trace -> string -> option error;
  filepath_Base : string -> string;
  json_Unmarshal : string -> result (list JValue);
  client_New : Trace -> result Client;
  client_WrapError : string -> error -> error;
  output_IsJSON : bool;
  output_PrintJSON : Trace -> Message -> option error
}.

(** ** Programs: a trace of events and an early [return err] *)

Definition Exec (A : Type) : Type := Trace -> result A * Trace.

#[global] Instance Exec_ret : MRet Exec := fun A a tr => (Ok a, tr).
#[global] Instance Exec_bind : MBind Exec := fun A B f m tr =>
  match m tr with
  | (Ok a, tr') => f a tr'
  | (Err e, tr') => (Err e, tr')
  end.

Definition fail {A : Type} (e : error) : Exec A := fun tr => (Err e, tr).

(** Perform a call: ask the oracle (which sees the past), log the event. *)
Definition call {A : Type} (ev : Event) (oracle : Trace -> A) : Exec A :=
  fun tr => (Ok (oracle tr), tr ++ [ev]).

Definition lift_result {A : Type} (r : result A) : Exec A :=
  match r with
  | Ok a => mret a
  | Err e => fail e
  end.

(** ** Package client *)

Module client.
Import Utf8.

(** *** channel_resolver.go *)

(** [strings.TrimPrefix] *)
Fixpoint strip_prefix (prefix s : string) : option string :=
  match prefix, s with
  | EmptyString, _ => Some s
  | String p prefix', String c s' =>
    if decide (p = c) then strip_prefix prefix' s' else None
  | String _ _, EmptyString => None
  end.

Definition TrimPrefix (s prefix : string) : string :=
  match strip_prefix prefix s with
  | Some s' => s'
  | None => s
  end.

Definition is_digit_rune (c : Z) : bool := ((48 <=? c) && (c <=? 57))%Z.
Definition outside_upper (c : Z) : bool := ((c <? 65) || (90 <? c))%Z.

(** The loop [for _, c := range rest] of [IsChannelID], with its early
    [return false].  One iteration consumes one code point; [fuel] bounds
    the number of iterations, and [String.length rest] is always enough. *)
Fixpoint IsChannelID_loop (fuel : nat) (rest : string) (hasDigit : bool)
  : bool :=
  match fuel with
  | O => hasDigit
  | S fuel' =>
    match rest with
    | EmptyString => hasDigit
    | String _ _ =>
      let '(c, size) := DecodeRuneInString rest in
      if is_digit_rune c
      then IsChannelID_loop fuel' (drop_bytes size rest) true
      else if outside_upper c
           then false
           else IsChannelID_loop fuel' (drop_bytes size rest) hasDigit
    end
  end.

Definition is_prefix_byte (c : ascii) : bool :=
  match c with
  | "C"%char | "G"%char | "D"%char => true
  | _ => false
  end.

Definition IsChannelID (s : string) : bool :=
  if String.length s <? 2 then false
  else
    match s with
    | EmptyString => false
    | String prefix rest =>
      if negb (is_prefix_byte prefix) then false
      else if String.length rest =? 0 then false
      else IsChannelID_loop (String.length rest) rest false
    end.

Definition lookupChannelByName (env : Env) (c : Client) (name : string)
  : Exec string :=
  let name := strings_ToLower env (TrimPrefix name "#") in
  r ← call (EvListChannels "public_channel,private_channel" false 1000)
        (fun tr =>
           ListChannels c tr "public_channel,private_channel" false 1000);
  match r with
  | Err e => fail ("failed to list channels: " +:+ e)
  | Ok channels =>
    match find (fun ch => strings_EqualFold env (ch_Name ch) name) channels
    with
    | Some ch => mret (ch_ID ch)
    | None =>
      fail ("channel '" +:+ name +:+
            "' not found. Use 'slck channels list' to see available channels")
    end
  end.

Definition ResolveChannel (env : Env) (c : Client) (channel : string)
  : Exec string :=
  let channel := TrimPrefix channel "#" in
  if decide (channel = "") then fail "channel cannot be empty"
  else if IsChannelID channel then mret channel
  else lookupChannelByName env c channel.

(** *** The user resolver *)

(** [mu] only serialises concurrent callers; the calls modelled here are
    sequential, so the lock has no counterpart. *)
Record UserResolver := {
  r_client : Client;
  cache : gmap string string
}.

Definition NewUserResolver (c : Client) : UserResolver :=
  {| r_client := c; cache := ∅ |}.

(** A method of [*UserResolver]: it may update the resolver and extends
    the trace; it cannot fail. *)
Definition Method (A : Type) : Type :=
  UserResolver * Trace -> A * (UserResolver * Trace).

#[global] Instance Method_ret : MRet Method := fun A a st => (a, st).
#[global] Instance Method_bind : MBind Method := fun A B f m st =>
  let '(a, st') := m st in f a st'.

Definition Resolve (userID : string) : Method string := fun '(r, tr) =>
  if decide (userID = "") then (userID, (r, tr))
  else
    match cache r !! userID with
    | Some name => (name, (r, tr))
    | None =>
      let answer := GetUserInfo (r_client r) tr userID in
      let tr' := tr ++ [EvGetUserInfo userID answer] in
      match answer with
      | Err _ => (userID, (r, tr'))
      | Ok user =>
        let name := DisplayName (Profile user) in
        let name := if decide (name = "") then RealName user else name in
        let name := if decide (name = "") then Name user else name in
        let name := if decide (name = "") then userID else name in
        (name,
         ({| r_client := r_client r;
             cache := <[userID := name]> (cache r) |}, tr'))
      end
    end.

(** [mentionRegex = `<@(U[A-Z0-9]+)>`].  The pattern is ASCII only and a
    byte [>= 0x80] matches none of its atoms, so matching on bytes agrees
    with matching on code points. *)
Definition is_id_byte (c : ascii) : bool :=
  let n := byteZ c in
  (((48 <=? n) && (n <=? 57)) || ((65 <=? n) && (n <=? 90)))%Z.

(** The greedy [[A-Z0-9]*]: the longest run and what follows it. *)
Fixpoint span_id (s : string) : string * string :=
  match s with
  | EmptyString => (EmptyString, EmptyString)
  | String c t =>
    if is_id_byte c
    then let '(run, rest) := span_id t in (String c run, rest)
    else (EmptyString, s)
  end.

(** A match of [mentionRegex] anchored at the first byte of [s]: the
    capture group and the text after the match. *)
Definition match_here (s : string) : option (string * string) :=
  match s with
  | String "<" (String "@" (String "U" t)) =>
    match span_id t with
    | (String c run, String ">" rest) => Some (String "U" (String c run), rest)
    | _ => None
    end
  | _ => None
  end.

Record Match := {
  m_before : string;   (* the text in front of the match *)
  m_whole : string;    (* the matched text *)
  m_group : string;    (* capture group 1 *)
  m_after : string     (* the text behind the match *)
}.

(** The leftmost match of [mentionRegex] in [s]. *)
Fixpoint find_match (s : string) : option Match :=
  match match_here s with
  | Some (id, rest) =>
    Some {| m_before := ""; m_whole := "<@" +:+ id +:+ ">";
            m_group := id; m_after := rest |}
  | None =>
    match s with
    | EmptyString => None
    | String c t =>
      match find_match t with
      | Some m =>
        Some {| m_before := String c (m_before m); m_whole := m_whole m;
                m_group := m_group m; m_after := m_after m |}
      | None => None
      end
    end
  end.

(** [mentionRegex.FindStringSubmatch]: the match and its group, or nil. *)
Definition FindStringSubmatch (s : string) : list string :=
  match find_match s with
  | Some m => [m_whole m; m_group m]
  | None => []
  end.

(** [mentionRegex.ReplaceAllStringFunc]: the matches are taken from left
    to right without overlap and [repl] is called on each one in turn.
    Every match is at least four bytes long, so [String.length src]
    iterations are always enough. *)
Fixpoint ReplaceAllStringFunc (fuel : nat) (src : string)
  (repl : string -> Method string) : Method string :=
  match fuel with
  | O => mret src
  | S fuel' =>
    match find_match src with
    | None => mret src
    | Some m =>
      new ← repl (m_whole m);
      out ← ReplaceAllStringFunc fuel' (m_after m) repl;
      mret (m_before m +:+ new +:+ out)
    end
  end.

(** The function literal passed to [ReplaceAllStringFunc]. *)
Definition ResolveMentions_func (match_ : string) : Method string :=
  let sub := FindStringSubmatch match_ in
  if length sub <? 2 then mret match_
  else
    match sub with
    | _ :: id :: _ => name ← Resolve id; mret ("@" +:+ name)
    | _ => mret match_
    end.

Definition ResolveMentions (text : string) : Method string :=
  ReplaceAllStringFunc (String.length text) text ResolveMentions_func.

End client.

(** ** Package messages (internal/cmd/messages/send.go) *)

Module messages.
Import client.

Definition newline : string := String "010"%char "".

(** [s != ""] *)
Definition nonempty (s : string) : bool := negb (bool_decide (s = "")).

(** Modelled from the spec: [unescapeShellChars] is called by [runSend] but
    its body is not part of the sources at hand.  Section 4.3, step 4:
    "sequences of backslash immediately followed by [!] are rewritten to a
    bare [!]; any other backslash sequence is left untouched".  The scan
    goes from left to right. *)
Fixpoint unescapeShellChars (s : string) : string :=
  match s with
  | EmptyString => EmptyString
  | String c t =>
    match c, t with
    | "\"%char, String "!"%char t' => String "!" (unescapeShellChars t')
    | _, _ => String c (unescapeShellChars t)
    end
  end.

(** Modelled from the spec: [buildDefaultBlocks] is called by [runSend] but
    its body is not part of the sources at hand.  Section 4.3, step 7: "one
    section block whose text object has styled-markdown type and the
    literal provided text as its content"; the keys and the type names are
    those read back by TestBuildDefaultBlocks. *)
Definition buildDefaultBlocks (text : string) : list JValue :=
  [JObj [("type", JStr "section");
         ("text", JObj [("type", JStr "mrkdwn"); ("text", JStr text)])]].

Record sendOptions := {
  threadTS : string;
  blocksJSON : string;
  blocksFile : string;
  blocksStdin : bool;
  simple : bool;
  noUnfurl : bool;
  files : list string;
  fileTitle : string
  (* [stdin io.Reader]: the reader is [stdin_Scan] of the environment *)
}.

(** [opts.threadTS = ts] *)
Definition set_threadTS (opts : sendOptions) (ts : string) : sendOptions :=
  {| threadTS := ts; blocksJSON := blocksJSON opts;
     blocksFile := blocksFile opts; blocksStdin := blocksStdin opts;
     simple := simple opts; noUnfurl := noUnfurl opts;
     files := files opts; fileTitle := fileTitle opts |}.

(** One turn of the loop [for scanner.Scan() { ... }]. *)
Definition append_line (lines line : string) : string :=
  (if 0 <? String.length lines then lines +:+ newline else lines) +:+ line.

(** The scanner loop over standard input, up to [string(lines)]. *)
Definition read_stdin (env : Env) (what : string) : Exec string :=
  r ← call EvReadStdin (stdin_Scan env);
  match r with
  | Err e => fail (what +:+ e)
  | Ok scanned => mret (fold_left append_line scanned "")
  end.

Fixpoint uploadFiles_loop (env : Env) (c : Client) (opts : sendOptions)
  (todo : list string) (uploadedFiles : list CompleteUploadExternalFile)
  : Exec (list CompleteUploadExternalFile) :=
  match todo with
  | [] => mret uploadedFiles
  | filePath :: todo' =>
    info ← call (EvStat filePath) (fun tr => os_Stat env tr filePath);
    match info with
    | Err e => fail ("cannot access file " +:+ filePath +:+ ": " +:+ e)
    | Ok size =>
      let filename := filepath_Base env filePath in
      _ ← call (EvPrintf ("Uploading %s (%d bytes)..." +:+ newline)
                  [AStr filename; AInt size]) (fun _ => tt);
      uploadResp ← call (EvGetUploadURLExternal filename size)
                     (fun tr => GetUploadURLExternal c tr filename size);
      match uploadResp with
      | Err e => fail (client_WrapError env "get upload URL" e)
      | Ok uploadResp =>
        f ← call (EvOpen filePath) (fun tr => os_Open env tr filePath);
        match f with
        | Some e => fail ("opening file " +:+ filePath +:+ ": " +:+ e)
        | None =>
          err ← call (EvUploadFileToURL (UploadURL uploadResp) filePath)
                  (fun tr =>
                     UploadFileToURL c tr (UploadURL uploadResp) filePath);
          match err with
          | Some e => fail (client_WrapError env "upload file" e)
          | None =>
            let title :=
              if nonempty (fileTitle opts) then fileTitle opts
              else filename in
            uploadFiles_loop env c opts todo'
              (uploadedFiles ++
               [{| cue_ID := FileID uploadResp; cue_Title := title |}])
          end
        end
      end
    end
  end.

Definition uploadFiles (env : Env) (c : Client) (channelID text : string)
  (opts : sendOptions) : Exec unit :=
  uploadedFiles ← uploadFiles_loop env c opts (files opts) [];
  err ← call (EvCompleteUploadExternal uploadedFiles channelID
                (threadTS opts) text)
          (fun tr =>
             CompleteUploadExternal c tr uploadedFiles channelID
               (threadTS opts) text);
  match err with
  | Some e => fail (client_WrapError env "complete upload" e)
  | None =>
    if length uploadedFiles =? 1
    then call (EvPrintf ("File uploaded to channel %s" +:+ newline)
                 [AStr channelID]) (fun _ => tt)
    else call (EvPrintf ("%d files uploaded to channel %s" +:+ newline)
                 [AInt (Z.of_nat (length uploadedFiles)); AStr channelID])
           (fun _ => tt)
  end.

(** The count of the blocks options that are set. *)
Definition blocksOptionsCount (opts : sendOptions) : nat :=
  let n := 0 in
  let n := if nonempty (blocksJSON opts) then S n else n in
  let n := if nonempty (blocksFile opts) then S n else n in
  let n := if blocksStdin opts then S n else n in
  n.

Definition runSend (env : Env) (channel text : string) (opts : sendOptions)
  (c : option Client) : Exec unit :=
  (* Validate and normalize thread timestamp if provided *)
  ts ← (if nonempty (threadTS opts)
        then match validate_Timestamp env (threadTS opts) with
             | Some err => fail err
             | None => mret (validate_NormalizeTimestamp env (threadTS opts))
             end
        else mret (threadTS opts));
  let opts := set_threadTS opts ts in
  (* Validate mutually exclusive blocks options *)
  if 1 <? blocksOptionsCount opts
  then fail
    "only one of --blocks, --blocks-file, or --blocks-stdin can be specified"
  else
  (* Read from stdin if text is "-" *)
  text ← (if bool_decide (text = "-")
          then if blocksStdin opts
               then fail ("cannot use '-' for text and --blocks-stdin " +:+
                          "together; stdin can only be used for one")
               else read_stdin env "reading stdin: "
          else mret text);
  (* Unescape shell-escaped characters (e.g., \! from zsh) *)
  let text := unescapeShellChars text in
  (* Determine blocks source *)
  blocksSource ←
    (if nonempty (blocksJSON opts) then mret (blocksJSON opts)
     else if nonempty (blocksFile opts)
     then data ← call (EvReadFile (blocksFile opts))
                   (fun tr => os_ReadFile env tr (blocksFile opts));
          match data with
          | Err e => fail ("reading blocks file: " +:+ e)
          | Ok data => mret data
          end
     else if blocksStdin opts
     then read_stdin env "reading blocks from stdin: "
     else mret "");
  (* Validate: must have text, blocks, or files *)
  let hasBlocks := nonempty blocksSource in
  let hasFiles := 0 <? length (files opts) in
  if negb (nonempty text) && negb hasBlocks && negb hasFiles
  then fail ("message text cannot be empty (or provide blocks via " +:+
             "--blocks, --blocks-file, --blocks-stdin, or files via --file)")
  else
  c ← match c with
      | Some c => mret c
      | None => made ← call EvNewClient (client_New env); lift_result made
      end;
  (* Resolve channel name to ID if needed *)
  channelID ← ResolveChannel env c channel;
  (* Handle file uploads *)
  if hasFiles then uploadFiles env c channelID text opts
  else
  blocks ←
    (if nonempty blocksSource
     then match json_Unmarshal env blocksSource with
          | Err e => fail ("invalid blocks JSON: " +:+ e)
          | Ok blocks => mret blocks
          end
     else if negb (simple opts) && nonempty text
     then (* Default to block style for a more refined appearance *)
          mret (buildDefaultBlocks text)
     else mret []);
  msg ← call (EvSendMessage channelID text (threadTS opts) blocks
                (negb (noUnfurl opts)))
          (fun tr =>
             SendMessage c tr channelID text (threadTS opts) blocks
               (negb (noUnfurl opts)));
  match msg with
  | Err e => fail (client_WrapError env "send message" e)
  | Ok msg =>
    if output_IsJSON env
    then err ← call (EvPrintJSON msg)
                 (fun tr => output_PrintJSON env tr msg);
         match err with
         | Some e => fail e
         | None => mret tt
         end
    else call (EvPrintf ("Message sent (ts: %s)" +:+ newline) [AStr (TS msg)])
           (fun _ => tt)
  end.

End messages.

(** * Vocabulary of the statements *)

Import Utf8 client messages.

(** The bytes of a string, as a list. *)
Definition bytes (s : string) : list ascii := String.list_ascii_of_string s.

Definition is_digit (c : ascii) : Prop := (48 <= byteZ c <= 57)%Z.
Definition is_upper (c : ascii) : Prop := (65 <= byteZ c <= 90)%Z.

(** The ChannelID shape: a first byte among C, G, D, then uppercase letters
    and digits only, with a digit among them. *)
Definition ChannelID_shape (s : string) : Prop :=
  exists (c : ascii) (rest : string),
    s = String c rest /\
    (c = "C"%char \/ c = "G"%char \/ c = "D"%char) /\
    Forall (fun x => is_upper x \/ is_digit x) (bytes rest) /\
    Exists is_digit (bytes rest).

(** A token with one leading [#] removed, if it has one. *)
Definition strip_hash (token : string) : string :=
  match token with
  | String "#" t => t
  | _ => token
  end.

(** [sub] occurs in [s]. *)
Definition occurs_in (sub s : string) : Prop :=
  exists pre post : string, s = pre +:+ sub +:+ post.

(** [s] contains no occurrence of [sub]. *)
Definition free_of (sub s : string) : Prop := ~ occurs_in sub s.

(** [strings.Join]: the chunks, with [sep] between neighbours. *)
Fixpoint join (sep : string) (chunks : list string) : string :=
  match chunks with
  | [] => ""
  | [chunk] => chunk
  | chunk :: chunks' => chunk +:+ sep +:+ join sep chunks'
  end.

(** A backslash followed by an exclamation mark. *)
Definition escaped_bang : string := "\!".

(** A check for an occurrence of [escaped_bang]. *)
Fixpoint has_escaped_bang (s : string) : bool :=
  match s with
  | EmptyString => false
  | String c t =>
    (bool_decide (c = "\"%char)
     && match t with
        | String d _ => bool_decide (d = "!"%char)
        | EmptyString => false
        end)
    || has_escaped_bang t
  end.

(** What a program adds to the trace and what it returns: from every
    starting trace, [m] only appends events that satisfy [P], and a value
    it returns satisfies [Q]. *)
Definition emits {A : Type} (P : Event -> Prop) (Q : A -> Prop)
  (m : Exec A) : Prop :=
  forall tr : Trace, exists new : list Event,
    snd (m tr) = tr ++ new /\ Forall P new /\
    forall a : A, fst (m tr) = Ok a -> Q a.

Definition any {A : Type} (_ : A) : Prop := True.

(** The number of blocks sources that are set, counted as the
    specification counts them. *)
Definition blocks_sources_set (opts : sendOptions) : nat :=
  (if decide (blocksJSON opts = "") then 0 else 1) +
  (if decide (blocksFile opts = "") then 0 else 1) +
  (if blocksStdin opts then 1 else 0).

Definition conflict_message : string :=
  "only one of --blocks, --blocks-file, or --blocks-stdin can be specified".




(** The calls that concern the file [a], whose base name is [base]: every
    other network call is excluded, the finalize call among them. *)
Definition first_file_calls_only (base a : string) (ev : Event) : Prop :=
  match ev with
  | EvGetUploadURLExternal filename _ => filename = base
  | EvUploadFileToURL _ path => path = a
  | EvCompleteUploadExternal _ _ _ _ | EvSendMessage _ _ _ _ _
  | EvListChannels _ _ _ | EvGetUserInfo _ _ => False
  | _ => True
  end.

(** The postcondition of a program that never returns a value. *)
Definition nothing {A : Type} (_ : A) : Prop := False.

(** The outcome of one event as a user-info lookup for [u]: whether the
    lookup succeeded, or [None] for any other event. *)
Definition lookup_outcome (u : string) (ev : Event) : option bool :=
  match ev with
  | EvGetUserInfo id answer =>
    if decide (id = u)
    then Some (match answer with Ok _ => true | Err _ => false end)
    else None
  | _ => None
  end.

(** The outcomes of the user-info lookups for [u] in a trace, oldest
    first. *)
Definition lookups_of (u : string) (tr : Trace) : list bool :=
  omap (lookup_outcome u) tr.

(** A sequence of [Resolve] calls on one resolver, one after the other. *)
Fixpoint resolve_all (ids : list string) : Method (list string) :=
  match ids with
  | [] => mret []
  | id :: ids' =>
    name ← Resolve id;
    names ← resolve_all ids';
    mret (name :: names)
  end.

(** The first candidate that is not empty, or the fallback. *)
Fixpoint first_nonempty (candidates : list string) (fallback : string)
  : string :=
  match candidates with
  | [] => fallback
  | s :: candidates' =>
    if decide (s = "") then first_nonempty candidates' fallback else s
  end.

(** The lookups for every ID are failures followed, when the ID is cached,
    by one success. *)
Definition lookups_match_cache (st : UserResolver * Trace) : Prop :=
  forall u : string, exists k : nat,
    lookups_of u (snd st)
    = replicate k false ++
      match cache (fst st) !! u with Some _ => [true] | None => [] end.

(** A user ID as the mention markup has it: [U], then one or more
    uppercase letters or digits. *)
Definition valid_user_id (id : string) : Prop :=
  exists t : string,
    id = String "U" t /\ t <> "" /\
    Forall (fun x => is_upper x \/ is_digit x) (bytes t).

(** The markup of a mention. *)
Definition mention (id : string) : string := "<@" +:+ id +:+ ">".

(** [s] contains the markup of a mention. *)
Definition has_mention (s : string) : Prop :=
  exists pre id post : string,
    valid_user_id id /\ s = pre +:+ mention id +:+ post.

(** A text cut at its mentions: plain chunks, each followed by the ID of
    the mention behind it, and the plain chunk at the end. *)
Fixpoint with_mentions (parts : list (string * string)) (last : string)
  : string :=
  match parts with
  | [] => last
  | (plain, id) :: parts' =>
    plain +:+ mention id +:+ with_mentions parts' last
  end.

(** The same text with every mention replaced by [@] and the name that
    [Resolve] gives for its ID, the IDs being resolved from left to right. *)
Fixpoint with_names (parts : list (string * string)) (last : string)
  : Method string :=
  match parts with
  | [] => mret last
  | (plain, id) :: parts' =>
    name ← Resolve id;
    out ← with_names parts' last;
    mret (plain +:+ "@" +:+ name +:+ out)
  end.

(** The cut is at all the mentions: no plain chunk contains one. *)
Definition well_cut (parts : list (string * string)) (last : string) : Prop :=
  Forall (fun part => ~ has_mention (fst part) /\ valid_user_id (snd part))
    parts /\
  ~ has_mention last.

(** ** A small concrete world, for the examples *)

Definition lower_byte (c : ascii) : ascii :=
  let n := N_of_ascii c in
  if ((65 <=? n) && (n <=? 90))%N then ascii_of_N (n + 32) else c.

Fixpoint ascii_ToLower (s : string) : string :=
  match s with
  | EmptyString => EmptyString
  | String c t => String (lower_byte c) (ascii_ToLower t)
  end.

Definition ascii_EqualFold (a b : string) : bool :=
  bool_decide (ascii_ToLower a = ascii_ToLower b).

(** The last element of a slash-separated path that does not end in a
    slash. *)
Fixpoint last_element (acc s : string) : string :=
  match s with
  | EmptyString => acc
  | String "/" t => last_element "" t
  | String c t => last_element (acc +:+ String c "") t
  end.

Fixpoint only_digits_and_dots (s : string) : bool :=
  match s with
  | EmptyString => true
  | String c t =>
    (is_digit_rune (byteZ c) || bool_decide (c = "."%char))
    && only_digits_and_dots t
  end.

(** Modelled from the spec: [validate.Timestamp] is not part of the sources
    at hand.  Section 4.3, step 1: a thread timestamp is validated "against
    the platform's timestamp format" and an "invalid format fails with
    InvalidTimestamp".  This stand-in accepts digits and dots only; like the
    real function (TestRunSend_InvalidThreadTimestamp) it rejects
    "not-a-timestamp" with a message containing "invalid timestamp". *)
Definition demo_Timestamp (ts : string) : option error :=
  if only_digits_and_dots ts then None
  else Some ("invalid timestamp format: " +:+ ts).

Definition demo_user (id name : string) : User :=
  {| ID := id; Name := name; RealName := name;
     Profile := {| DisplayName := name |} |}.

(** A workspace with the channel "general" and the users alice and bob, in
    which every upload succeeds. *)
Definition demo_client : Client :=
  {| ListChannels := fun _ _ _ _ =>
       Ok [{| ch_ID := "C111111"; ch_Name := "general" |}];
     GetUserInfo := fun _ id =>
       if decide (id = "U001") then Ok (demo_user id "alice")
       else if decide (id = "U002") then Ok (demo_user id "bob")
       else Err "user_not_found";
     SendMessage := fun _ channel _ _ _ _ =>
       Ok {| TS := "1234567890.123456"; msg_Channel := channel |};
     GetUploadURLExternal := fun _ _ _ =>
       Ok {| UploadURL := "https://files.example/upload"; FileID := "F123" |};
     UploadFileToURL := fun _ _ _ => None;
     CompleteUploadExternal := fun _ _ _ _ _ => None |}.

(** A machine whose standard input yields [input] and whose file system
    holds exactly the files of [disk], given with their sizes. *)
Definition demo_env (input : list string) (disk : list (string * Z)) : Env :=
  {| strings_ToLower := ascii_ToLower;
     strings_EqualFold := ascii_EqualFold;
     validate_Timestamp := demo_Timestamp;
     validate_NormalizeTimestamp := fun ts => ts;
     stdin_Scan := fun _ => Ok input;
     os_ReadFile := fun _ path =>
       Err ("open " +:+ path +:+ ": no such file or directory");
     os_Stat := fun _ path =>
       match find (fun f => bool_decide (fst f = path)) disk with
       | Some f => Ok (snd f)
       | None => Err ("stat " +:+ path +:+ ": no such file or directory")
       end;
     os_Open := fun _ path =>
       match find (fun f => bool_decide (fst f = path)) disk with
       | Some _ => None
       | None => Some ("open " +:+ path +:+ ": no such file or directory")
       end;
     filepath_Base := last_element "";
     json_Unmarshal := fun _ => Err "invalid character";
     client_New := fun _ => Ok demo_client;
     client_WrapError := fun op e => op +:+ ": " +:+ e;
     output_IsJSON := false;
     output_PrintJSON := fun _ _ => None |}.

Definition plain_options : sendOptions :=
  {| threadTS := ""; blocksJSON := ""; blocksFile := "";
     blocksStdin := false; simple := false; noUnfurl := false;
     files := []; fileTitle := "" |}.

(** Two blocks sources at once, no thread. *)
Definition two_sources : sendOptions :=
  {| threadTS := ""; blocksJSON := "[]"; blocksFile := "/some/file.json";
     blocksStdin := false; simple := false; noUnfurl := false;
     files := []; fileTitle := "" |}.

(** Two blocks sources at once, in reply to a malformed thread timestamp. *)
Definition two_sources_bad_thread : sendOptions :=
  {| threadTS := "not-a-timestamp"; blocksJSON := "[]";
     blocksFile := "/some/file.json";
     blocksStdin := false; simple := false; noUnfurl := false;
     files := []; fileTitle := "" |}.

(** A first file that exists and a second one that does not. *)
Definition two_files : sendOptions :=
  {| threadTS := ""; blocksJSON := ""; blocksFile := "";
     blocksStdin := false; simple := false; noUnfurl := false;
     files := ["/tmp/a.csv"; "/nonexistent/file.txt"]; fileTitle := "" |}.

Definition disk_with_a : list (string * Z) := [("/tmp/a.csv", 11%Z)].

(** A resolver that already knows alice. *)
Definition knows_alice : UserResolver :=
  {| r_client := demo_client; cache := {["U001" := "alice"]} |}.

(** One mention between two plain chunks. *)
Definition greeting : list (string * string) := [("hey ", "U001")].

(** ** Vocabulary of the further properties *)

(** The arguments of the one listing call that the name lookup makes. *)
Definition listing_call : Event :=
  EvListChannels "public_channel,private_channel" false 1000.

(** The name that a token is looked up by: both the resolver and the
    lookup strip one leading [#], then the name is put in lower case. *)
Definition lookup_name (env : Env) (token : string) : string :=
  strings_ToLower env (strip_hash (strip_hash token)).

(** The listed channel [ch] goes by the name that [token] is looked up
    by. *)
Definition names_channel (env : Env) (token : string) (ch : Channel) : Prop :=
  strings_EqualFold env (ch_Name ch) (lookup_name env token) = true.

(** A token that takes the name path: not empty once a leading [#] is
    stripped, and not of the ChannelID shape. *)
Definition is_name_token (token : string) : Prop :=
  strip_hash token <> "" /\ IsChannelID (strip_hash token) = false.

(** The error of a message without text, blocks or files. *)
Definition empty_message : string :=
  "message text cannot be empty (or provide blocks via " +:+
  "--blocks, --blocks-file, --blocks-stdin, or files via --file)".


(** The thread timestamp is absent or passes validation. *)
Definition thread_ok (env : Env) (opts : sendOptions) : Prop :=
  threadTS opts = "" \/ validate_Timestamp env (threadTS opts) = None.

(** The thread timestamp as it reaches the platform. *)
Definition thread_sent (env : Env) (opts : sendOptions) : string :=
  if nonempty (threadTS opts)
  then validate_NormalizeTimestamp env (threadTS opts)
  else threadTS opts.

(** No message is sent. *)
Definition sends_nothing (ev : Event) : Prop :=
  match ev with
  | EvSendMessage _ _ _ _ _ => False
  | _ => True
  end.

(** Messages go out without blocks. *)
Definition sends_without_blocks (ev : Event) : Prop :=
  match ev with
  | EvSendMessage _ _ _ blocks _ => blocks = []
  | _ => True
  end.

(** Messages and finalize calls carry the thread timestamp [ts]; messages
    have unfurling set to [unfurl]. *)
Definition sends_with (ts : string) (unfurl : bool) (ev : Event) : Prop :=
  match ev with
  | EvSendMessage _ _ ts' _ unfurl' => ts' = ts /\ unfurl' = unfurl
  | EvCompleteUploadExternal _ _ ts' _ => ts' = ts
  | _ => True
  end.

(** The lines of a text without the empty lines at its start. *)
Fixpoint drop_leading_empty (lines : list string) : list string :=
  match lines with
  | [] => []
  | line :: lines' =>
    if decide (line = "") then drop_leading_empty lines' else lines
  end.

(** The events of the upload of one file. *)
Definition upload_step (ev : Event) : Prop :=
  match ev with
  | EvStat _ | EvPrintf _ _ | EvGetUploadURLExternal _ _ | EvOpen _
  | EvUploadFileToURL _ _ => True
  | _ => False
  end.



(** Plain text, no block formatting. *)
Definition simple_options : sendOptions :=
  {| threadTS := ""; blocksJSON := ""; blocksFile := "";
     blocksStdin := false; simple := true; noUnfurl := false;
     files := []; fileTitle := "" |}.

(** [opts] with other files. *)
Definition with_files (opts : sendOptions) (paths : list string)
  : sendOptions :=
  {| threadTS := threadTS opts; blocksJSON := blocksJSON opts;
     blocksFile := blocksFile opts; blocksStdin := blocksStdin opts;
     simple := simple opts; noUnfurl := noUnfurl opts;
     files := paths; fileTitle := fileTitle opts |}.

(** The title a file is shared under: the [--file-title] if there is one,
    else the base name of the path. *)
Definition shared_title (env : Env) (opts : sendOptions) (path : string)
  : string :=
  if decide (fileTitle opts = "") then filepath_Base env path
  else fileTitle opts.

(** What the successful upload of one file of [size] bytes to [url] adds to
    the trace. *)
Definition upload_events (env : Env) (size : string -> Z)
  (slot : string -> UploadURLResponse) (path : string) : list Event :=
  [EvStat path;
   EvPrintf ("Uploading %s (%d bytes)..." +:+ newline)
     [AStr (filepath_Base env path); AInt (size path)];
   EvGetUploadURLExternal (filepath_Base env path) (size path);
   EvOpen path;
   EvUploadFileToURL (UploadURL (slot path)) path].

(** The handle the finalize call carries for one file. *)
Definition upload_handle (env : Env) (opts : sendOptions)
  (slot : string -> UploadURLResponse) (path : string)
  : CompleteUploadExternalFile :=
  {| cue_ID := FileID (slot path); cue_Title := shared_title env opts path |}.

(** The line printed after the finalize call. *)
Definition upload_report (n : nat) (channelID : string) : Event :=
  if n =? 1
  then EvPrintf ("File uploaded to channel %s" +:+ newline) [AStr channelID]
  else EvPrintf ("%d files uploaded to channel %s" +:+ newline)
         [AInt (Z.of_nat n); AStr channelID].

(** A finalize call names [n] files, the channel [channelID] and the
    comment [text]; nothing else reaches the chat. *)
Definition finalizes (n : nat) (channelID text : string) (ev : Event) : Prop :=
  match ev with
  | EvCompleteUploadExternal uploaded channel _ comment =>
    length uploaded = n /\ channel = channelID /\ comment = text
  | EvSendMessage _ _ _ _ _ => False
  | _ => True
  end.

(** Every path of [paths] can be stat'ed, gets an upload slot, can be
    opened and is transferred. *)
Definition all_uploads_succeed (env : Env) (c : Client) (size : string -> Z)
  (slot : string -> UploadURLResponse) (paths : list string) : Prop :=
  forall (path : string) (tr : Trace),
    path ∈ paths ->
    os_Stat env tr path = Ok (size path) /\
    GetUploadURLExternal c tr (filepath_Base env path) (size path)
    = Ok (slot path) /\
    os_Open env tr path = None /\
    UploadFileToURL c tr (UploadURL (slot path)) path = None.

(** Two files that exist. *)
Definition disk_with_a_b : list (string * Z) :=
  [("/tmp/a.csv", 11%Z); ("/tmp/b.csv", 5%Z)].

Definition two_good_files : sendOptions :=
  {| threadTS := ""; blocksJSON := ""; blocksFile := "";
     blocksStdin := false; simple := false; noUnfurl := false;
     files := ["/tmp/a.csv"; "/tmp/b.csv"]; fileTitle := "" |}.

Definition demo_size (path : string) : Z :=
  if decide (path = "/tmp/a.csv") then 11%Z else 5%Z.

Definition demo_slot (path : string) : UploadURLResponse :=
  {| UploadURL := "https://files.example/upload"; FileID := "F123" |}.

(** No entry of the cache is for the empty ID and no cached name is
    empty. *)
Definition cache_sound (st : UserResolver * Trace) : Prop :=
  forall u name : string,
    cache (fst st) !! u = Some name -> u <> "" /\ name <> "".

(** [ResolveMentions] on one text after the other, on one resolver. *)
Fixpoint resolve_mentions_all (texts : list string) : Method (list string) :=
  match texts with
  | [] => mret []
  | text :: texts' =>
    out ← ResolveMentions text;
    outs ← resolve_mentions_all texts';
    mret (out :: outs)
  end.

(** A lookup of a user whose ID is mentioned in [text]. *)
Definition looks_up_mentioned (text : string) (ev : Event) : Prop :=
  exists (id : string) (answer : result User),
    ev = EvGetUserInfo id answer /\
    valid_user_id id /\ occurs_in (mention id) text.

(** ** Package output (process-wide output helpers) *)

Module output.

(** [type Format string] *)
Definition Format := string.
Definition FormatText : Format := "text".
Definition FormatJSON : Format := "json".
Definition FormatTable : Format := "table".

(** [ValidFormats] *)
Definition ValidFormats : list string := [FormatText; FormatJSON; FormatTable].

(** [ParseFormat]; [ToLower] is [strings.ToLower] and [Quote] is what the
    verb [%q] prints for a string.  A Go function returning
    [(Format, error)] always returns both. *)
Definition ParseFormat (ToLower Quote : string -> string) (s : string)
  : Format * option error :=
  let lower := ToLower s in
  if bool_decide (lower = "text") || bool_decide (lower = "")
  then (FormatText, None)
  else if bool_decide (lower = "json") then (FormatJSON, None)
  else if bool_decide (lower = "table") then (FormatTable, None)
  else (FormatText,
        Some ("invalid output format " +:+ Quote s +:+
              ": must be one of: text, json, table")).


(** The loop [for i, cell := range row] of [Table], from index [i] on. *)
Fixpoint widen_row (widths : list nat) (i : nat) (row : list string)
  : list nat :=
  match row with
  | [] => widths
  | cell :: row' =>
    let widths :=
      match widths !! i with
      | Some w =>
        if w <? String.length cell
        then <[i := String.length cell]> widths
        else widths
      | None => widths
      end in
    widen_row widths (S i) row'
  end.

(** "Calculate column widths" *)
Definition column_widths (headers : list string) (rows : list (list string))
  : list nat :=
  fold_left (fun widths row => widen_row widths 0 row) rows
    (map String.length headers).





End output.

Import output.

(** The widest cell of column [i] in the rows, but at least [w]. *)
Definition widest (i : nat) (rows : list (list string)) (w : nat) : nat :=
  fold_left (fun w row =>
               match row !! i with
               | Some cell => Nat.max w (String.length cell)
               | None => w
               end) rows w.

(** ** The archive command (internal/cmd/channels/archive.go) and the
       reaction command of package messages *)

Module commands.
Import client messages.

(** What these commands do to the outside world: the events above, and
    beyond them a line printed with [output.Println], one [scanner.Scan()]
    on the confirmation reader, and the two platform calls of their own. *)
Inductive Step : Type :=
| Core (ev : Event)
| Println (line : string)
| Scan
| CallArchiveChannel (channelID : string)
| CallAddReaction (channel timestamp emoji : string).

Abbreviation History := (list Step).

(** The events of a history that the functions above can see. *)
Definition core_events (past : History) : Trace :=
  omap (fun s => match s with Core ev => Some ev | _ => None end) past.

(** [*client.Client] with the methods that these commands add. *)
Record Platform := {
  api : Client;
  ArchiveChannel : History -> string -> option error;
  AddReaction : History -> string -> string -> string -> option error
}.

(** A reader as [bufio.Scanner] sees it: [Some text] when [Scan] returns
    true with [Text() = text], [None] when it returns false (end of input
    or a read error). *)
Definition Reader : Type := History -> option string.

(** The environment of the commands: the one above, with [client.New],
    [os.Stdin] and [strings.TrimSpace]. *)
Record Host := {
  host_env : Env;
  platform_New : History -> result Platform;
  os_Stdin : Reader;
  strings_TrimSpace : string -> string
}.

Definition Cmd (A : Type) : Type := History -> result A * History.

#[global] Instance Cmd_ret : MRet Cmd := fun A a past => (Ok a, past).
#[global] Instance Cmd_bind : MBind Cmd := fun A B f m past =>
  match m past with
  | (Ok a, past') => f a past'
  | (Err e, past') => (Err e, past')
  end.

(** [return err] *)
Definition stop {A : Type} (e : error) : Cmd A := fun past => (Err e, past).

Definition perform {A : Type} (s : Step) (oracle : History -> A) : Cmd A :=
  fun past => (Ok (oracle past), past ++ [s]).

(** A program of the packages above, run inside a command: it sees the
    core events of the history, and the events it adds are appended. *)
Definition core {A : Type} (m : Exec A) : Cmd A := fun past =>
  let seen := core_events past in
  let '(r, tr) := m seen in
  (r, past ++ map Core (drop (length seen) tr)).

Definition Printf (format : string) (args : list Arg) : Cmd unit :=
  perform (Core (EvPrintf format args)) (fun _ => tt).

(** [if c == nil { c, err = client.New(); if err != nil { return err } }] *)
Definition connect (h : Host) (c : option Platform) : Cmd Platform :=
  match c with
  | Some c => mret c
  | None =>
    made ← perform (Core EvNewClient) (platform_New h);
    match made with
    | Ok c => mret c
    | Err e => stop e
    end
  end.

(** [trimLeftByte] and [trimRightByte] of package strings. *)
Fixpoint trimLeftByte (s : string) (c : ascii) : string :=
  match s with
  | EmptyString => EmptyString
  | String a s' => if decide (a = c) then trimLeftByte s' c else s
  end.

Fixpoint trimRightByte (s : string) (c : ascii) : string :=
  match s with
  | EmptyString => EmptyString
  | String a s' =>
    match trimRightByte s' c with
    | EmptyString => if decide (a = c) then EmptyString else String a ""
    | rest => String a rest
    end
  end.

(** [strings.Trim(s, cutset)] for a cutset of one ASCII byte. *)
Definition Trim (s : string) (cutset : ascii) : string :=
  trimLeftByte (trimRightByte s cutset) cutset.

(** *** archive.go *)

Record archiveOptions := {
  force : bool;
  stdin : option Reader
}.

(** [runArchive] from [if c == nil] on: what runs once the confirmation is
    passed or skipped. *)
Definition runArchive_confirmed (h : Host) (channel : string)
  (c : option Platform) : Cmd unit :=
  c ← connect h c;
  (* Resolve channel name to ID if needed *)
  channelID ← core (ResolveChannel (host_env h) (api c) channel);
  err ← perform (CallArchiveChannel channelID)
          (fun past => ArchiveChannel c past channelID);
  match err with
  | Some e =>
    stop (client_WrapError (host_env h) ("archive channel " +:+ channel) e)
  | None => Printf ("Archived channel: %s" +:+ newline) [AStr channel]
  end.

Definition runArchive (h : Host) (channel : string) (opts : archiveOptions)
  (c : option Platform) : Cmd unit :=
  (* Prompt for confirmation unless --force *)
  if negb (force opts)
  then
    let reader := default (os_Stdin h) (stdin opts) in
    _ ← Printf ("About to archive channel: %s" +:+ newline) [AStr channel];
    _ ← Printf "Are you sure? [y/N]: " [];
    line ← perform Scan reader;
    match line with
    | Some text =>
      let confirm :=
        strings_TrimSpace h (strings_ToLower (host_env h) text) in
      if negb (bool_decide (confirm = "y"))
         && negb (bool_decide (confirm = "yes"))
      then perform (Println "Cancelled.") (fun _ => tt)
      else runArchive_confirmed h channel c
    | None => runArchive_confirmed h channel c
    end
  else runArchive_confirmed h channel c.

(** *** The reaction command *)


End commands.

(** ** Vocabulary of the commands *)

Import commands.

(** The two lines of the confirmation prompt. *)
Definition prompt (channel : string) : History :=
  [Core (EvPrintf ("About to archive channel: %s" +:+ newline)
           [AStr channel]);
   Core (EvPrintf "Are you sure? [y/N]: " [])].

(** The prompt, then the read of the answer. *)
Definition confirmation (channel : string) : History :=
  prompt channel ++ [Scan].

(** The reader that the confirmation is read from. *)
Definition confirmation_reader (h : Host) (opts : archiveOptions) : Reader :=
  match stdin opts with
  | Some reader => reader
  | None => os_Stdin h
  end.

(** The answer as it is compared: in lower case, then trimmed. *)
Definition normalized (h : Host) (text : string) : string :=
  strings_TrimSpace h (strings_ToLower (host_env h) text).

(** The same options with [--force]. *)
Definition forced (opts : archiveOptions) : archiveOptions :=
  {| force := true; stdin := stdin opts |}.




(** What [runArchive] does with a channel resolved to [channelID]: one
    archive call on the ID, and messages that name the channel as typed. *)
Definition archive_outcome (h : Host) (p : Platform)
  (channel channelID : string) (past : History) : result unit * History :=
  match ArchiveChannel p past channelID with
  | None =>
    (Ok tt,
     past ++ [CallArchiveChannel channelID;
              Core (EvPrintf ("Archived channel: %s" +:+ newline)
                      [AStr channel])])
  | Some e =>
    (Err (client_WrapError (host_env h) ("archive channel " +:+ channel) e),
     past ++ [CallArchiveChannel channelID])
  end.

(** Trimming of ASCII spaces, standing for [strings.TrimSpace] in the
    examples. *)
Definition demo_TrimSpace (s : string) : string := Trim s " ".

(** A platform on which archiving and reacting succeed. *)
Definition demo_platform : Platform :=
  {| api := demo_client;
     ArchiveChannel := fun _ _ => None;
     AddReaction := fun _ _ _ _ => None |}.

(** A machine whose standard input yields the line [answer], if any. *)
Definition demo_host (answer : option string) : Host :=
  {| host_env := demo_env [] [];
     platform_New := fun _ => Ok demo_platform;
     os_Stdin := fun _ => answer;
     strings_TrimSpace := demo_TrimSpace |}.

Definition ask_first : archiveOptions := {| force := false; stdin := None |}.

(** * Properties *)

(** ** Strings *)

Section Strings.

Lemma str_app_cons (c : ascii) (s t : string) :
  String c s +:+ t = String c (s +:+ t).
Proof. reflexivity. Qed.

Lemma str_app_nil_l (s : string) : "" +:+ s = s.
Proof. reflexivity. Qed.

Lemma str_app_nil_r (s : string) : s +:+ "" = s.
Proof.
  induction s as [|c s IH]; [done | by rewrite str_app_cons, IH].
Qed.

Lemma str_app_assoc (a b c : string) : (a +:+ b) +:+ c = a +:+ b +:+ c.
Proof.
  induction a as [|x a IH]; [done | by rewrite !str_app_cons, IH].
Qed.

Lemma str_length_app (a b : string) :
  String.length (a +:+ b) = String.length a + String.length b.
Proof.
  induction a as [|x a IH]; [done | rewrite str_app_cons; simpl; by rewrite IH].
Qed.

End Strings.

(** ** IsChannelID *)

Section ChannelID.
Local Open Scope Z_scope.

Lemma byteZ_range (c : ascii) : 0 <= byteZ c < 256.
Proof.
  unfold byteZ. pose proof (N_ascii_bounded c). lia.
Qed.

Lemma decode_ascii (c : ascii) (t : string) :
  byteZ c < 128 -> DecodeRuneInString (String c t) = (byteZ c, 1%nat).
Proof.
  intros H. unfold DecodeRuneInString.
  destruct (Z.ltb_spec (byteZ c) 128); [done | lia].
Qed.

Lemma lead_info_range (s0 : Z) (sz : nat) (lo hi : Z) :
  lead_info s0 = Some (sz, lo, hi) ->
  128 <= lo /\ hi <= 191 /\
  ((sz = 2%nat /\ 194 <= s0 <= 223) \/
   (sz = 3%nat /\ 224 <= s0 <= 239 /\ (s0 = 224 -> 160 <= lo)) \/
   (sz = 4%nat /\ 240 <= s0 <= 244 /\ (s0 = 240 -> 144 <= lo))).
Proof.
  unfold lead_info.
  repeat match goal with
         | |- context [if ?b then _ else _] =>
           let E := fresh "E" in destruct b eqn:E
         end;
    intros [= <- <- <-] || discriminate; lia.
Qed.

Lemma decode_non_ascii (c : ascii) (t : string) :
  128 <= byteZ c -> 128 <= fst (DecodeRuneInString (String c t)).
Proof.
  intros H. pose proof (byteZ_range c) as Hc.
  unfold DecodeRuneInString.
  destruct (Z.ltb_spec (byteZ c) 128); [lia |].
  destruct (lead_info (byteZ c)) as [[[sz lo] hi]|] eqn:Hl;
    [| unfold RuneError; simpl; lia].
  apply lead_info_range in Hl as (Hlo & Hhi & Hsz).
  destruct t as [|c1 t1]; [unfold RuneError; simpl; lia |].
  pose proof (byteZ_range c1) as Hc1.
  destruct (Z.ltb_spec (byteZ c1) lo), (Z.ltb_spec hi (byteZ c1)); simpl;
    try (unfold RuneError; lia).
  destruct Hsz as [[-> ?] | [(-> & ? & ?) | (-> & ? & ?)]]; simpl.
  - Z.div_mod_to_equations; lia.
  - destruct t1 as [|c2 t2]; [unfold RuneError; simpl; lia |].
    pose proof (byteZ_range c2).
    destruct (is_cont (byteZ c2)); simpl; [| unfold RuneError; lia].
    destruct (Z.eq_dec (byteZ c) 224); Z.div_mod_to_equations; lia.
  - destruct t1 as [|c2 t2]; [unfold RuneError; simpl; lia |].
    pose proof (byteZ_range c2).
    destruct (is_cont (byteZ c2)); simpl; [| unfold RuneError; lia].
    destruct t2 as [|c3 t3]; [unfold RuneError; simpl; lia |].
    pose proof (byteZ_range c3).
    destruct (is_cont (byteZ c3)); simpl; [| unfold RuneError; lia].
    destruct (Z.eq_dec (byteZ c) 240); Z.div_mod_to_equations; lia.
Qed.

Lemma is_digit_rune_spec (c : ascii) :
  is_digit_rune (byteZ c) = true <-> is_digit c.
Proof.
  unfold is_digit_rune, is_digit.
  rewrite andb_true_iff, !Z.leb_le. tauto.
Qed.

Lemma outside_upper_spec (c : ascii) :
  outside_upper (byteZ c) = false <-> is_upper c.
Proof.
  unfold outside_upper, is_upper.
  rewrite orb_false_iff, !Z.ltb_ge. tauto.
Qed.

(** What the loop computes, whenever it is given enough iterations. *)
Lemma IsChannelID_loop_spec (fuel : nat) :
  forall (rest : string) (hasDigit : bool),
    (String.length rest <= fuel)%nat ->
    IsChannelID_loop fuel rest hasDigit = true <->
    Forall (fun x => is_upper x \/ is_digit x) (bytes rest) /\
    (hasDigit = true \/ Exists is_digit (bytes rest)).
Proof.
  induction fuel as [|fuel IH]; intros rest hasDigit Hlen.
  - destruct rest; simpl in Hlen; [| lia]. simpl.
    rewrite Exists_nil. split; [auto | tauto].
  - destruct rest as [|c t].
    { simpl. rewrite Exists_nil. split; [auto | tauto]. }
    simpl in Hlen.
    change (bytes (String c t)) with (c :: bytes t).
    rewrite Forall_cons, Exists_cons.
    cbn [IsChannelID_loop].
    destruct (Z.lt_ge_cases (byteZ c) 128) as [Hascii | Hhigh].
    + rewrite (decode_ascii c t Hascii). cbn [drop_bytes].
      destruct (is_digit_rune (byteZ c)) eqn:Hd.
      * apply is_digit_rune_spec in Hd.
        rewrite IH by lia. intuition.
      * assert (~ is_digit c) as Hnd
            by (rewrite <- is_digit_rune_spec; congruence).
        destruct (outside_upper (byteZ c)) eqn:Hu.
        -- assert (~ is_upper c) as Hnu
               by (rewrite <- outside_upper_spec; congruence).
           split; [discriminate | tauto].
        -- apply outside_upper_spec in Hu.
           rewrite IH by lia. tauto.
    + pose proof (decode_non_ascii c t Hhigh) as Hr.
      destruct (DecodeRuneInString (String c t)) as [r size]. simpl in Hr.
      assert (is_digit_rune r = false) as ->
          by (unfold is_digit_rune; apply andb_false_iff; right;
              apply Z.leb_gt; lia).
      assert (outside_upper r = true) as ->
          by (unfold outside_upper; apply orb_true_iff; right;
              apply Z.ltb_lt; lia).
      unfold is_upper, is_digit. split; [discriminate | lia].
Qed.

Lemma IsChannelID_iff_shape (s : string) :
  IsChannelID s = true <-> (2 <= String.length s)%nat /\ ChannelID_shape s.
Proof.
  unfold IsChannelID, ChannelID_shape.
  destruct (Nat.ltb_spec (String.length s) 2) as [Hshort | Hlong].
  { split; [discriminate | lia]. }
  destruct s as [|c rest]; [simpl in Hlong; lia |].
  simpl in Hlong.
  assert (is_prefix_byte c = true <->
          c = "C"%char \/ c = "G"%char \/ c = "D"%char) as Hprefix.
  { split.
    - destruct c as [[] [] [] [] [] [] [] []]; simpl; try discriminate; auto.
    - intros [-> | [-> | ->]]; reflexivity. }
  destruct (is_prefix_byte c).
  - simpl. destruct (Nat.eqb_spec (String.length rest) 0) as [H0 | _];
      [lia |].
    rewrite IsChannelID_loop_spec by lia.
    split.
    + intros [Hall [Hfalse | Hex]]; [discriminate |].
      split; [simpl; lia |].
      exists c, rest. rewrite <- Hprefix. auto.
    + intros [_ (c' & rest' & [= <- <-] & _ & Hall & Hex)]. auto.
  - simpl. split; [discriminate |].
    intros [_ (c' & rest' & [= <- <-] & Hc & _)].
    apply Hprefix in Hc. discriminate.
Qed.

(** A string of the shape has a byte after its first one. *)
Lemma ChannelID_shape_length (s : string) :
  ChannelID_shape s -> (2 <= String.length s)%nat.
Proof.
  intros (c & rest & -> & _ & _ & Hex).
  destruct rest; [by apply Exists_nil in Hex | simpl; lia].
Qed.

(** ** C1 *)

(** C1. [IsChannelID s] holds exactly when [s] has at least two bytes, its
    first byte is one of C, G, D, every later byte is an uppercase letter or
    a digit, and at least one later byte is a digit.  In particular
    "GENERAL" (no digit) and "C123abc" (lowercase) are rejected. *)
Theorem IsChannelID_shape :
  (forall s : string,
     IsChannelID s = true <->
     (2 <= String.length s)%nat /\
     exists (c : ascii) (rest : string),
       s = String c rest /\
       (c = "C"%char \/ c = "G"%char \/ c = "D"%char) /\
       Forall (fun x => is_upper x \/ is_digit x) (bytes rest) /\
       Exists is_digit (bytes rest)) /\
  IsChannelID "GENERAL" = false /\
  IsChannelID "C123abc" = false.
Proof.
  split; [| split; reflexivity].
  intros s. apply IsChannelID_iff_shape.
Qed.

End ChannelID.

(** ** ResolveChannel *)

Section Channels.

Lemma TrimPrefix_hash (token : string) :
  TrimPrefix token "#" = strip_hash token.
Proof.
  unfold TrimPrefix, strip_hash.
  destruct token as [|c t]; [done |].
  cbn [strip_prefix]. destruct (decide ("#"%char = c)) as [<- | Hne]; [done |].
  destruct c as [[] [] [] [] [] [] [] []]; try done.
Qed.

(** C4. A token which, after one leading [#] is stripped, is not empty and
    has the ChannelID shape is returned as stripped, and nothing is added
    to the trace: no channel listing, and no other call either. *)
Theorem ResolveChannel_id_unchanged (env : Env) (c : Client)
  (token : string) (tr : Trace) :
  strip_hash token <> "" ->
  ChannelID_shape (strip_hash token) ->
  ResolveChannel env c token tr = (Ok (strip_hash token), tr).
Proof.
  intros Hne Hshape. unfold ResolveChannel.
  rewrite TrimPrefix_hash.
  destruct (decide (strip_hash token = "")) as [He | _]; [done |].
  assert (IsChannelID (strip_hash token) = true) as ->; [| done].
  apply IsChannelID_iff_shape.
  split; [by apply ChannelID_shape_length | done].
Qed.

Lemma ResolveChannel_id_unchanged_witness :
  ResolveChannel (demo_env [] []) demo_client "#C123ABC" []
  = (Ok (strip_hash "#C123ABC"), []).
Proof.
  apply (ResolveChannel_id_unchanged (demo_env [] []) demo_client
           "#C123ABC" []).
  - discriminate.
  - apply (proj2 (proj1 (IsChannelID_iff_shape "C123ABC") eq_refl)).
Defined.

End Channels.

(** ** Reasoning about programs and their traces *)

Section ExecLogic.
Context {A B : Type} (P : Event -> Prop).

Lemma emits_ret (Q : A -> Prop) (a : A) : Q a -> emits P Q (mret a).
Proof.
  intros HQ tr. exists []. rewrite app_nil_r.
  unfold mret, Exec_ret; simpl.
  split; [done |]. split; [done |]. by intros ? [= <-].
Qed.

Lemma emits_fail (Q : A -> Prop) (e : error) : emits P Q (fail e).
Proof.
  intros tr. exists []. rewrite app_nil_r. unfold fail; simpl.
  split; [done |]. split; [done |]. by intros ? [=].
Qed.

Lemma emits_call (Q : A -> Prop) (ev : Event) (oracle : Trace -> A) :
  P ev -> (forall tr, Q (oracle tr)) -> emits P Q (call ev oracle).
Proof.
  intros Hev HQ tr. exists [ev]. unfold call; simpl.
  split; [done |]. split; [by constructor |].
  intros ? [= <-]. apply HQ.
Qed.

Lemma emits_lift_result (r : result A) : emits P any (lift_result r).
Proof. destruct r; [by apply emits_ret | apply emits_fail]. Qed.

Lemma emits_bind (Q : A -> Prop) (R : B -> Prop) (m : Exec A)
  (f : A -> Exec B) :
  emits P Q m -> (forall a, Q a -> emits P R (f a)) -> emits P R (m ≫= f).
Proof.
  intros Hm Hf tr. unfold mbind, Exec_bind.
  destruct (Hm tr) as (n1 & E1 & F1 & Q1).
  destruct (m tr) as [[a | e] tr1]; simpl in E1, Q1; subst tr1.
  - destruct (Hf a (Q1 a eq_refl) (tr ++ n1)) as (n2 & E2 & F2 & Q2).
    exists (n1 ++ n2). rewrite E2, app_assoc.
    split; [done |]. split; [by apply Forall_app | done].
  - exists n1. simpl. split; [done |]. split; [done |]. by intros ? [=].
Qed.

Lemma emits_ret_bind (R : B -> Prop) (a : A) (f : A -> Exec B) :
  emits P R (f a) -> emits P R (mret a ≫= f).
Proof. intros Hf tr. apply (Hf tr). Qed.

Lemma emits_any (Q : A -> Prop) (m : Exec A) : emits P Q m -> emits P any m.
Proof.
  intros Hm tr. destruct (Hm tr) as (new & E & F & _).
  exists new. split; [done |]. split; [done |]. by intros.
Qed.

End ExecLogic.

(** Running a program from a given trace. *)
Lemma run_ret_bind {A B : Type} (a : A) (f : A -> Exec B) (tr : Trace) :
  (mret a ≫= f) tr = f a tr.
Proof. reflexivity. Qed.

Lemma run_bind_ok {A B : Type} (m : Exec A) (f : A -> Exec B)
  (tr tr' : Trace) (a : A) :
  m tr = (Ok a, tr') -> (m ≫= f) tr = f a tr'.
Proof. intros H. unfold mbind, Exec_bind. by rewrite H. Qed.

Lemma run_call_bind {A B : Type} (ev : Event) (oracle : Trace -> A)
  (f : A -> Exec B) (tr : Trace) :
  (call ev oracle ≫= f) tr = f (oracle tr) (tr ++ [ev]).
Proof. reflexivity. Qed.

(** One step through a program whose returned values need no tracking. *)
Ltac emits_step :=
  first [ apply emits_ret; exact I
        | apply emits_fail
        | apply emits_lift_result
        | apply emits_call; [| intros ?; exact I]
        | apply emits_ret_bind
        | case_match
        | apply (emits_bind _ any); [| intros ? _] ].

Lemma ResolveChannel_emits (env : Env) (c : Client) (channel : string)
  (P : Event -> Prop) :
  (forall types archived limit, P (EvListChannels types archived limit)) ->
  emits P any (ResolveChannel env c channel).
Proof.
  intros HP. unfold ResolveChannel, lookupChannelByName.
  repeat emits_step; done.
Qed.

(** ** unescapeShellChars *)

Section Unescape.

Lemma unescape_bang (t : string) :
  unescapeShellChars (String "\" (String "!" t))
  = String "!" (unescapeShellChars t).
Proof. reflexivity. Qed.

Lemma unescape_other (c : ascii) (t : string) :
  ~ (c = "\"%char /\ exists t', t = String "!" t') ->
  unescapeShellChars (String c t) = String c (unescapeShellChars t).
Proof.
  intros Hno.
  destruct (decide (c = "\"%char)) as [-> | Hc].
  - destruct t as [|d t']; [done |].
    destruct (decide (d = "!"%char)) as [-> | Hd];
      [exfalso; apply Hno; eauto |].
    destruct d as [[] [] [] [] [] [] [] []]; done.
  - destruct c as [[] [] [] [] [] [] [] []]; done.
Qed.

Lemma occurs_escaped_cons (c : ascii) (s : string) :
  occurs_in escaped_bang (String c s) <->
  (c = "\"%char /\ exists s', s = String "!" s') \/ occurs_in escaped_bang s.
Proof.
  split.
  - intros ([|x pre] & post & E).
    + left. injection E as -> ->. eauto.
    + right. injection E as -> ->. by exists pre, post.
  - intros [[-> [s' ->]] | (pre & post & ->)].
    + by exists "", s'.
    + by exists (String c pre), post.
Qed.

Lemma unescape_free (p : string) :
  free_of escaped_bang p -> unescapeShellChars p = p.
Proof.
  induction p as [|c p IH]; [done |]. intros Hfree.
  unfold free_of in Hfree. rewrite occurs_escaped_cons in Hfree.
  rewrite unescape_other by tauto. rewrite IH; [done |].
  unfold free_of. tauto.
Qed.

Lemma unescape_chunk (p r : string) :
  free_of escaped_bang p ->
  unescapeShellChars (p +:+ escaped_bang +:+ r)
  = p +:+ "!" +:+ unescapeShellChars r.
Proof.
  induction p as [|c p IH]; [done |]. intros Hfree.
  unfold free_of in Hfree. rewrite occurs_escaped_cons in Hfree.
  rewrite !str_app_cons, unescape_other.
  - rewrite IH; [done |]. unfold free_of. tauto.
  - intros [-> [t' Ht']]. apply Hfree. left. split; [done |].
    destruct p as [|d p']; [discriminate |].
    rewrite str_app_cons in Ht'. injection Ht' as -> _. eauto.
Qed.

Lemma unescape_join (chunk : string) (chunks : list string) :
  Forall (free_of escaped_bang) (chunk :: chunks) ->
  unescapeShellChars (join escaped_bang (chunk :: chunks))
  = join "!" (chunk :: chunks).
Proof.
  revert chunk. induction chunks as [|next chunks IH]; intros chunk Hall.
  - apply unescape_free. by inversion Hall.
  - inversion Hall as [|? ? Hchunk Hrest]; subst.
    change (join escaped_bang (chunk :: next :: chunks))
      with (chunk +:+ escaped_bang +:+ join escaped_bang (next :: chunks)).
    rewrite unescape_chunk by done. by rewrite IH.
Qed.

Lemma split_at_escapes (s : string) :
  exists (chunk : string) (chunks : list string),
    Forall (free_of escaped_bang) (chunk :: chunks) /\
    s = join escaped_bang (chunk :: chunks).
Proof.
  induction s as [|c s (chunk & chunks & Hall & ->)].
  - exists "", []. split; [| done].
    constructor; [| done]. intros ([|? ?] & ? & [=]).
  - inversion Hall as [|? ? Hchunk Hrest]; subst.
    assert ((c = "\"%char /\ exists s', chunk = String "!" s') \/
            ~ (c = "\"%char /\ exists s', chunk = String "!" s'))
      as [[-> [chunk' ->]] | Hno].
    { destruct (decide (c = "\"%char)) as [-> | Hc];
        [| right; by intros [? _]].
      destruct chunk as [|d chunk']; [right; by intros [_ [? [=]]] |].
      destruct (decide (d = "!"%char)) as [-> | Hd]; [left; eauto |].
      right. intros [_ [? [= ? ?]]]. done. }
    + exists "", (chunk' :: chunks). split.
      * constructor; [intros ([|? ?] & ? & [=]) |].
        constructor; [| done].
        unfold free_of in *. rewrite occurs_escaped_cons in Hchunk. tauto.
      * by destruct chunks.
    + exists (String c chunk), chunks. split.
      * constructor; [| done].
        unfold free_of in *. rewrite occurs_escaped_cons. tauto.
      * by destruct chunks.
Qed.

Lemma has_escaped_bang_sound (s : string) :
  has_escaped_bang s = false -> free_of escaped_bang s.
Proof.
  unfold free_of. induction s as [|c s IH]; intros Hcheck.
  - intros ([|? ?] & ? & [=]).
  - cbn [has_escaped_bang] in Hcheck.
    apply orb_false_iff in Hcheck as [Hhere Hlater].
    rewrite occurs_escaped_cons. intros [[-> [s' ->]] | Hocc].
    + discriminate.
    + by apply IH.
Qed.

(** C9. The shell-unescaping step turns every backslash that is directly
    followed by an exclamation mark, together with that mark, into a bare
    exclamation mark and copies everything else: a text cut at its
    occurrences of backslash-bang is mapped to the same chunks joined by
    bare exclamation marks, and every text can be cut in this way.  A
    backslash followed by another byte, or by nothing, stays. *)
Theorem unescapeShellChars_spec :
  (forall (chunk : string) (chunks : list string),
     Forall (free_of escaped_bang) (chunk :: chunks) ->
     unescapeShellChars (join escaped_bang (chunk :: chunks))
     = join "!" (chunk :: chunks)) /\
  (forall s : string,
     exists (chunk : string) (chunks : list string),
       Forall (free_of escaped_bang) (chunk :: chunks) /\
       s = join escaped_bang (chunk :: chunks)) /\
  unescapeShellChars "Hello\! World\!" = "Hello! World!" /\
  unescapeShellChars "Hello\nWorld" = "Hello\nWorld" /\
  unescapeShellChars "Hello\" = "Hello\".
Proof.
  split; [exact unescape_join |].
  split; [exact split_at_escapes |].
  repeat split.
Qed.

Lemma unescapeShellChars_spec_witness :
  unescapeShellChars (join escaped_bang ["Hello"; " World"; ""])
  = join "!" ["Hello"; " World"; ""].
Proof.
  apply (proj1 unescapeShellChars_spec "Hello" [" World"; ""]).
  repeat (apply Forall_cons_2; [apply has_escaped_bang_sound; reflexivity |]).
  apply Forall_nil_2.
Defined.

End Unescape.

(** ** runSend: the composer *)

Section Composer.

Ltac exec_unfold :=
  unfold read_stdin, call, fail, lift_result, mbind, mret,
    Exec_bind, Exec_ret in *.

Lemma nonempty_false (s : string) : nonempty s = false <-> s = "".
Proof.
  unfold nonempty. rewrite negb_false_iff, bool_decide_eq_true. done.
Qed.

Lemma nonempty_true (s : string) : nonempty s = true <-> s <> "".
Proof.
  unfold nonempty. rewrite negb_true_iff, bool_decide_eq_false. done.
Qed.

Lemma blocksOptionsCount_spec (opts : sendOptions) :
  blocksOptionsCount opts = blocks_sources_set opts.
Proof.
  assert (forall s, nonempty s = if decide (s = "") then false else true)
    as Hn.
  { intros s. destruct (decide (s = "")) as [-> |]; [done |].
    by apply nonempty_true. }
  unfold blocksOptionsCount, blocks_sources_set. rewrite !Hn.
  destruct (decide (blocksJSON opts = "")),
           (decide (blocksFile opts = "")), (blocksStdin opts);
    reflexivity.
Qed.

Lemma blocksOptionsCount_set_threadTS (opts : sendOptions) (ts : string) :
  blocksOptionsCount (set_threadTS opts ts) = blocksOptionsCount opts.
Proof. reflexivity. Qed.

(** C8 (amended). When more than one of the inline blocks, the blocks file
    and the blocks-from-stdin flag is set, [runSend] fails and leaves the
    trace as it was: no blocks source has been read and no network call has
    been made.  When the thread timestamp is absent or valid, the error is
    the conflicting-source message, which names the three flags; an invalid
    thread timestamp is reported before the conflict is looked for. *)
Theorem conflicting_blocks_sources (env : Env) (channel text : string)
  (opts : sendOptions) (c : option Client) (tr : Trace) :
  1 < blocks_sources_set opts ->
  (exists e : error, runSend env channel text opts c tr = (Err e, tr)) /\
  (threadTS opts = "" \/ validate_Timestamp env (threadTS opts) = None ->
   runSend env channel text opts c tr = (Err conflict_message, tr)) /\
  occurs_in "--blocks" conflict_message /\
  occurs_in "--blocks-file" conflict_message /\
  occurs_in "--blocks-stdin" conflict_message.
Proof.
  intros Hcount.
  assert ((1 <? blocks_sources_set opts) = true) as Hlt
      by (apply Nat.ltb_lt; lia).
  assert (forall ts k,
            ((if 1 <? blocksOptionsCount (set_threadTS opts ts)
              then fail conflict_message
              else k) : Exec unit) tr
            = (Err conflict_message, tr)) as Hconflict.
  { intros ts k.
    by rewrite blocksOptionsCount_set_threadTS, blocksOptionsCount_spec,
         Hlt. }
  split; [| split].
  - unfold runSend.
    destruct (nonempty (threadTS opts)) eqn:Hn;
      [destruct (validate_Timestamp env (threadTS opts)) as [err |] |].
    + exists err. reflexivity.
    + exists conflict_message. rewrite run_ret_bind. apply Hconflict.
    + exists conflict_message. rewrite run_ret_bind. apply Hconflict.
  - intros Hts. unfold runSend.
    destruct (nonempty (threadTS opts)) eqn:Hn.
    + destruct Hts as [Hempty | Hvalid].
      * apply nonempty_true in Hn. done.
      * rewrite Hvalid, run_ret_bind. apply Hconflict.
    + rewrite run_ret_bind. apply Hconflict.
  - split; [| split].
    + by exists "only one of ",
        ", --blocks-file, or --blocks-stdin can be specified".
    + by exists "only one of --blocks, ",
        ", or --blocks-stdin can be specified".
    + by exists "only one of --blocks, --blocks-file, or ",
        " can be specified".
Qed.

Lemma conflicting_blocks_sources_witness :
  runSend (demo_env [] []) "C123456789" "text" two_sources None []
  = (Err conflict_message, []).
Proof.
  apply (proj1 (proj2
           (conflicting_blocks_sources (demo_env [] []) "C123456789" "text"
              two_sources None [] ltac:(vm_compute; lia)))).
  left. reflexivity.
Defined.

(** C8, as stated, fails: with two blocks sources set and a malformed
    thread timestamp, [runSend] reports the timestamp, not the conflict. *)
Lemma conflicting_sources_behind_timestamp :
  1 < blocks_sources_set two_sources_bad_thread /\
  fst (runSend (demo_env [] []) "C123456789" "text" two_sources_bad_thread
         None [])
  = Err "invalid timestamp format: not-a-timestamp" /\
  fst (runSend (demo_env [] []) "C123456789" "text" two_sources_bad_thread
         None [])
  <> Err conflict_message.
Proof.
  split; [vm_compute; lia |]. split; [reflexivity | discriminate].
Qed.

Lemma nonempty_empty : nonempty "" = false.
Proof. reflexivity. Qed.




End Composer.

(** ** uploadFiles *)

Section Upload.

Lemma run_fail_bind {A B : Type} (e : error) (f : A -> Exec B) (tr : Trace) :
  (fail e ≫= f) tr = (Err e, tr).
Proof. reflexivity. Qed.

(** C2 (amended). With two file paths of which the second cannot be
    stat'ed, [uploadFiles] returns an error and the only network calls it
    makes are the upload-slot request and the byte transfer of the first
    file: there is no call for the second file and no finalize call.  When
    the first file is readable and its two calls succeed, exactly these two
    calls are made, before the second path is examined, and the error names
    the second path. *)
Theorem upload_aborts_at_missing_second_file (env : Env) (c : Client)
  (channelID text : string) (opts : sendOptions) (a b : string) :
  files opts = [a; b] ->
  (forall tr, exists e, os_Stat env tr b = Err e) ->
  emits (first_file_calls_only (filepath_Base env a) a) nothing
    (uploadFiles env c channelID text opts) /\
  forall (size : Z) (resp : UploadURLResponse),
    (forall tr, os_Stat env tr a = Ok size) ->
    (forall tr,
       GetUploadURLExternal c tr (filepath_Base env a) size = Ok resp) ->
    (forall tr, os_Open env tr a = None) ->
    (forall tr, UploadFileToURL c tr (UploadURL resp) a = None) ->
    forall tr, exists e,
      uploadFiles env c channelID text opts tr
      = (Err ("cannot access file " +:+ b +:+ ": " +:+ e),
         tr ++ [EvStat a;
                EvPrintf ("Uploading %s (%d bytes)..." +:+ newline)
                  [AStr (filepath_Base env a); AInt size];
                EvGetUploadURLExternal (filepath_Base env a) size;
                EvOpen a;
                EvUploadFileToURL (UploadURL resp) a;
                EvStat b]).
Proof.
  intros Hfiles Hmissing. split.
  - unfold uploadFiles. rewrite Hfiles.
    apply (emits_bind _ nothing); [| by intros ? []].
    cbn [uploadFiles_loop].
    apply (emits_bind _ any); [by apply emits_call |].
    intros [size | e] _; [| apply emits_fail].
    apply (emits_bind _ any); [by apply emits_call |]. intros _ _.
    apply (emits_bind _ any); [by apply emits_call |].
    intros [resp | e] _; [| apply emits_fail].
    apply (emits_bind _ any); [by apply emits_call |].
    intros [e |] _; [apply emits_fail |].
    apply (emits_bind _ any); [by apply emits_call |].
    intros [e |] _; [apply emits_fail |].
    apply (emits_bind _ (fun info => exists e, info = Err e)).
    { apply emits_call; [done |]. intros tr. apply Hmissing. }
    intros info [e ->]. apply emits_fail.
  - intros size resp Hstat Hurl Hopen Hput tr.
    destruct (Hmissing
                (tr ++ [EvStat a] ++
                 [EvPrintf ("Uploading %s (%d bytes)..." +:+ newline)
                    [AStr (filepath_Base env a); AInt size]] ++
                 [EvGetUploadURLExternal (filepath_Base env a) size] ++
                 [EvOpen a] ++ [EvUploadFileToURL (UploadURL resp) a]))
      as [e He].
    exists e. unfold uploadFiles. rewrite Hfiles. cbn [uploadFiles_loop].
    unfold call, fail, mbind, mret, Exec_bind, Exec_ret.
    rewrite Hstat, Hurl, Hopen, Hput.
    rewrite <- !app_assoc. rewrite He. reflexivity.
Qed.

Lemma upload_aborts_at_missing_second_file_witness :
  emits (first_file_calls_only "a.csv" "/tmp/a.csv") nothing
    (uploadFiles (demo_env [] disk_with_a) demo_client "C123456789" ""
       two_files).
Proof.
  apply (upload_aborts_at_missing_second_file (demo_env [] disk_with_a)
           demo_client "C123456789" "" two_files
           "/tmp/a.csv" "/nonexistent/file.txt").
  - reflexivity.
  - intros tr. eexists. reflexivity.
Defined.

(** C2, as stated, fails: the first file has been uploaded by the time the
    second one is found missing, so the network calls for the first file are
    two, not zero. *)
Lemma first_file_uploaded_before_abort :
  (forall tr : Trace,
     os_Stat (demo_env [] disk_with_a) tr "/nonexistent/file.txt"
     = Err "stat /nonexistent/file.txt: no such file or directory") /\
  List.filter is_network
    (snd (uploadFiles (demo_env [] disk_with_a) demo_client "C123456789" ""
            two_files []))
  = [EvGetUploadURLExternal "a.csv" 11;
     EvUploadFileToURL "https://files.example/upload" "/tmp/a.csv"] /\
  List.filter is_network
    (snd (uploadFiles (demo_env [] disk_with_a) demo_client "C123456789" ""
            two_files []))
  <> [].
Proof. split; [reflexivity |]. split; [reflexivity | discriminate]. Qed.

End Upload.

(** ** The user resolver *)

Section Resolver.

Lemma lookups_of_app (u : string) (tr1 tr2 : Trace) :
  lookups_of u (tr1 ++ tr2) = lookups_of u tr1 ++ lookups_of u tr2.
Proof. apply omap_app. Qed.

(** What [Resolve] does, case by case. *)
Lemma Resolve_empty (st : UserResolver * Trace) : Resolve "" st = ("", st).
Proof. by destruct st. Qed.

Lemma Resolve_hit (r : UserResolver) (tr : Trace) (u name : string) :
  u <> "" -> cache r !! u = Some name -> Resolve u (r, tr) = (name, (r, tr)).
Proof.
  intros Hu Hhit. unfold Resolve.
  destruct (decide (u = "")) as [-> | _]; [done | by rewrite Hhit].
Qed.

Lemma display_name_choice (user : User) (u : string) :
  (let name := DisplayName (Profile user) in
   let name := if decide (name = "") then RealName user else name in
   let name := if decide (name = "") then Name user else name in
   let name := if decide (name = "") then u else name in
   name)
  = first_nonempty [DisplayName (Profile user); RealName user; Name user] u.
Proof.
  simpl.
  destruct (decide (DisplayName (Profile user) = "")) as [Hd | Hd];
    [| by repeat (destruct (decide _); try done)].
  destruct (decide (RealName user = "")) as [Hr | Hr];
    [| by repeat (destruct (decide _); try done)].
  by destruct (decide (Name user = "")).
Qed.

Lemma Resolve_miss_failure (r : UserResolver) (tr : Trace) (u : string)
  (e : error) :
  u <> "" -> cache r !! u = None ->
  GetUserInfo (r_client r) tr u = Err e ->
  Resolve u (r, tr) = (u, (r, tr ++ [EvGetUserInfo u (Err e)])).
Proof.
  intros Hu Hmiss Hfail. unfold Resolve.
  destruct (decide (u = "")) as [-> | _]; [done |].
  by rewrite Hmiss, Hfail.
Qed.

Lemma Resolve_miss_success (r : UserResolver) (tr : Trace) (u : string)
  (user : User) :
  u <> "" -> cache r !! u = None ->
  GetUserInfo (r_client r) tr u = Ok user ->
  let name :=
    first_nonempty [DisplayName (Profile user); RealName user; Name user] u
  in
  Resolve u (r, tr)
  = (name,
     ({| r_client := r_client r; cache := <[u := name]> (cache r) |},
      tr ++ [EvGetUserInfo u (Ok user)])).
Proof.
  intros Hu Hmiss Hok. unfold Resolve.
  destruct (decide (u = "")) as [-> | _]; [done |].
  rewrite Hmiss, Hok. cbv zeta. by rewrite display_name_choice.
Qed.

(** The four ways through [Resolve]. *)
Lemma Resolve_cases (r : UserResolver) (tr : Trace) (u : string) :
  (u = "" /\ Resolve u (r, tr) = ("", (r, tr))) \/
  (u <> "" /\ exists name,
     cache r !! u = Some name /\ Resolve u (r, tr) = (name, (r, tr))) \/
  (u <> "" /\ cache r !! u = None /\ exists e,
     GetUserInfo (r_client r) tr u = Err e /\
     Resolve u (r, tr) = (u, (r, tr ++ [EvGetUserInfo u (Err e)]))) \/
  (u <> "" /\ cache r !! u = None /\ exists user,
     GetUserInfo (r_client r) tr u = Ok user /\
     Resolve u (r, tr)
     = (first_nonempty
          [DisplayName (Profile user); RealName user; Name user] u,
        ({| r_client := r_client r;
            cache :=
              <[u := first_nonempty
                       [DisplayName (Profile user); RealName user; Name user]
                       u]> (cache r) |},
         tr ++ [EvGetUserInfo u (Ok user)]))).
Proof.
  destruct (decide (u = "")) as [-> | Hu]; [left; by rewrite Resolve_empty |].
  right. destruct (cache r !! u) as [name |] eqn:Hc.
  { left. split; [done |]. exists name. split; [done |].
    by apply Resolve_hit. }
  right. destruct (GetUserInfo (r_client r) tr u) as [user | e] eqn:Ha.
  - right. split; [done |]. split; [done |]. exists user. split; [done |].
    by apply Resolve_miss_success.
  - left. split; [done |]. split; [done |]. exists e. split; [done |].
    by apply Resolve_miss_failure.
Qed.

Lemma lookups_of_other (u v : string) (answer : result User) (tr : Trace) :
  v <> u ->
  lookups_of u (tr ++ [EvGetUserInfo v answer]) = lookups_of u tr.
Proof.
  intros Hne. rewrite lookups_of_app. cbn.
  destruct (decide (v = u)); [done | by rewrite app_nil_r].
Qed.

Lemma lookups_of_same (u : string) (answer : result User) (tr : Trace) :
  lookups_of u (tr ++ [EvGetUserInfo u answer])
  = lookups_of u tr ++ [match answer with Ok _ => true | Err _ => false end].
Proof.
  rewrite lookups_of_app. cbn. by destruct (decide (u = u)).
Qed.

Lemma replicate_snoc (k : nat) : replicate k false ++ [false]
                                 = replicate (S k) false.
Proof. induction k as [|k IH]; [done | simpl; by rewrite IH]. Qed.

Lemma Resolve_keeps_invariant (u : string) (st : UserResolver * Trace) :
  lookups_match_cache st -> lookups_match_cache (snd (Resolve u st)).
Proof.
  destruct st as [r tr]. intros Inv.
  destruct (Resolve_cases r tr u)
    as [[_ ->] | [(_ & name & _ & ->) |
        [(_ & Hmiss & e & _ & ->) | (_ & Hmiss & user & _ & ->)]]];
    try done.
  - intros v. destruct (Inv v) as [k Hk]. simpl in *.
    destruct (decide (u = v)) as [<- | Hne].
    + rewrite lookups_of_same, Hk, Hmiss, app_nil_r.
      exists (S k). by rewrite app_nil_r, replicate_snoc.
    + exists k. by rewrite lookups_of_other.
  - intros v. destruct (Inv v) as [k Hk]. simpl in *.
    destruct (decide (u = v)) as [<- | Hne].
    + rewrite lookups_of_same, Hk, Hmiss, app_nil_r, lookup_insert_eq.
      by exists k.
    + exists k. rewrite lookups_of_other by done.
      by rewrite lookup_insert_ne.
Qed.

Lemma resolve_all_keeps_invariant (ids : list string) :
  forall st : UserResolver * Trace,
    lookups_match_cache st -> lookups_match_cache (snd (resolve_all ids st)).
Proof.
  induction ids as [|id ids IH]; intros st Inv; [done |].
  cbn [resolve_all]. unfold mbind, mret, Method_bind, Method_ret.
  pose proof (Resolve_keeps_invariant id st Inv) as Inv1.
  destruct (Resolve id st) as [name st1]. simpl in Inv1.
  specialize (IH st1 Inv1).
  by destruct (resolve_all ids st1) as [names st2].
Qed.

(** C3 (amended). In any sequence of [Resolve] calls on a new resolver, the
    lookups issued for one ID are failed lookups followed by at most one
    successful one, after which the ID is cached; and a call for a cached ID
    returns the cached name without a lookup and without changing the
    resolver.  So at most one successful lookup is issued per ID. *)
Theorem lookups_stop_after_success (c : Client) (ids : list string) :
  (forall u : string, exists k : nat,
     lookups_of u (snd (snd (resolve_all ids (NewUserResolver c, []))))
     = replicate k false ++
       match cache (fst (snd (resolve_all ids (NewUserResolver c, [])))) !! u
       with
       | Some _ => [true]
       | None => []
       end) /\
  (forall (r : UserResolver) (tr : Trace) (u name : string),
     u <> "" -> cache r !! u = Some name ->
     Resolve u (r, tr) = (name, (r, tr))).
Proof.
  split; [| exact Resolve_hit].
  apply (resolve_all_keeps_invariant ids (NewUserResolver c, [])).
  intros u. by exists 0.
Qed.

Lemma lookups_stop_after_success_witness :
  Resolve "U001" (knows_alice, []) = ("alice", (knows_alice, [])).
Proof.
  apply (proj2 (lookups_stop_after_success demo_client [])).
  - discriminate.
  - reflexivity.
Defined.

(** C3, as stated, fails: an ID whose lookup fails is looked up again by
    every call. *)
Lemma failed_lookup_repeated :
  lookups_of "U999"
    (snd (snd (resolve_all ["U999"; "U999"] (NewUserResolver demo_client, []))))
  = [false; false] /\
  ~ (length
       (lookups_of "U999"
          (snd (snd (resolve_all ["U999"; "U999"]
                       (NewUserResolver demo_client, []))))) <= 1).
Proof.
  assert (lookups_of "U999"
            (snd (snd (resolve_all ["U999"; "U999"]
                         (NewUserResolver demo_client, []))))
          = [false; false]) as E by reflexivity.
  split; [exact E |]. rewrite E. simpl. lia.
Qed.

Lemma Resolve_miss_trace (r : UserResolver) (tr : Trace) (u : string) :
  u <> "" -> cache r !! u = None ->
  snd (snd (Resolve u (r, tr)))
  = tr ++ [EvGetUserInfo u (GetUserInfo (r_client r) tr u)].
Proof.
  intros Hu Hmiss.
  destruct (Resolve_cases r tr u)
    as [[-> _] | [(_ & name & Hhit & _) |
        [(_ & _ & e & Ha & ->) | (_ & _ & user & Ha & ->)]]];
    [done | congruence | by rewrite Ha | by rewrite Ha].
Qed.

Lemma snoc_not_self {X : Type} (l : list X) (x : X) : l <> l ++ [x].
Proof.
  intros E. apply (f_equal length) in E. rewrite length_app in E.
  simpl in E. lia.
Qed.

(** C5. [Resolve] always returns a name.  For the empty ID it returns the
    empty string and does nothing else.  For a non-empty ID that is not
    cached it asks for the user's record; if this lookup fails it returns
    the ID as it was given, and if it succeeds it returns the first
    non-empty one of the profile display name, the real name and the
    account name, or the ID when all three are empty. *)
Theorem Resolve_total_fallback (r : UserResolver) (tr : Trace) (u : string) :
  (u = "" -> Resolve u (r, tr) = ("", (r, tr))) /\
  (u <> "" -> cache r !! u = None ->
   snd (snd (Resolve u (r, tr)))
   = tr ++ [EvGetUserInfo u (GetUserInfo (r_client r) tr u)]) /\
  (u <> "" -> forall e : error,
     snd (snd (Resolve u (r, tr))) = tr ++ [EvGetUserInfo u (Err e)] ->
     fst (Resolve u (r, tr)) = u) /\
  (u <> "" -> forall user : User,
     snd (snd (Resolve u (r, tr))) = tr ++ [EvGetUserInfo u (Ok user)] ->
     fst (Resolve u (r, tr))
     = first_nonempty
         [DisplayName (Profile user); RealName user; Name user] u).
Proof.
  destruct (Resolve_cases r tr u)
    as [[-> ->] | [(Hu & name & Hhit & ->) |
        [(Hu & Hmiss & e & Ha & ->) | (Hu & Hmiss & user & Ha & ->)]]];
    simpl.
  - repeat split; done.
  - repeat split; try done.
    + by rewrite Hhit.
    + intros _ e E. by apply snoc_not_self in E.
    + intros _ user E. by apply snoc_not_self in E.
  - repeat split; try done.
    + by rewrite Ha.
    + intros _ user E. by apply app_inv_head in E.
  - repeat split; try done.
    + by rewrite Ha.
    + intros _ e E. by apply app_inv_head in E.
    + intros _ user' E. apply app_inv_head in E. by injection E as ->.
Qed.

Lemma Resolve_total_fallback_witness :
  fst (Resolve "U999" (knows_alice, [])) = "U999".
Proof.
  apply (proj1 (proj2 (proj2
           (Resolve_total_fallback knows_alice [] "U999")))
           ltac:(discriminate) "user_not_found").
  reflexivity.
Defined.

Lemma Resolve_other_key (u v : string) (r : UserResolver) (tr : Trace) :
  u <> v -> cache r !! u = None ->
  cache (fst (snd (Resolve v (r, tr)))) !! u = None /\
  r_client (fst (snd (Resolve v (r, tr)))) = r_client r.
Proof.
  intros Hne Hmiss.
  destruct (Resolve_cases r tr v)
    as [[_ ->] | [(_ & name & _ & ->) |
        [(_ & _ & e & _ & ->) | (_ & _ & user & _ & ->)]]];
    simpl; try done.
  by rewrite lookup_insert_ne.
Qed.

Lemma resolve_all_other_keys (u : string) (others : list string) :
  u ∉ others ->
  forall (r : UserResolver) (tr : Trace),
    cache r !! u = None ->
    cache (fst (snd (resolve_all others (r, tr)))) !! u = None /\
    r_client (fst (snd (resolve_all others (r, tr)))) = r_client r.
Proof.
  induction others as [|v others IH]; intros Hnotin r tr Hmiss; [done |].
  apply not_elem_of_cons in Hnotin as [Hne Hnotin].
  cbn [resolve_all]. unfold mbind, mret, Method_bind, Method_ret.
  destruct (Resolve_other_key u v r tr Hne Hmiss) as [Hc1 Hr1].
  destruct (Resolve v (r, tr)) as [name [r1 tr1]]. simpl in Hc1, Hr1.
  destruct (IH Hnotin r1 tr1 Hc1) as [Hc2 Hr2].
  destruct (resolve_all others (r1, tr1)) as [names [r2 tr2]].
  simpl in *. split; [done | congruence].
Qed.

(** C10. When the lookup for an ID that is not cached fails, [Resolve]
    returns the ID and leaves the resolver as it was, the failed ID not
    being cached; so, whatever other IDs are resolved in between, the next
    [Resolve] for the same ID issues the lookup again. *)
Theorem failed_lookup_not_cached (r : UserResolver) (tr : Trace)
  (u : string) (e : error) (others : list string) :
  u <> "" -> cache r !! u = None ->
  GetUserInfo (r_client r) tr u = Err e ->
  u ∉ others ->
  Resolve u (r, tr) = (u, (r, tr ++ [EvGetUserInfo u (Err e)])) /\
  cache (fst (snd (Resolve u (r, tr)))) !! u = None /\
  exists (r' : UserResolver) (tr' : Trace),
    snd (resolve_all others (snd (Resolve u (r, tr)))) = (r', tr') /\
    snd (snd (Resolve u (r', tr')))
    = tr' ++ [EvGetUserInfo u (GetUserInfo (r_client r) tr' u)].
Proof.
  intros Hu Hmiss Hfail Hnotin.
  rewrite (Resolve_miss_failure r tr u e Hu Hmiss Hfail). cbn [fst snd].
  split; [done |]. split; [done |].
  destruct (resolve_all_other_keys u others Hnotin r
              (tr ++ [EvGetUserInfo u (Err e)]) Hmiss) as [Hc Hr].
  destruct (resolve_all others (r, tr ++ [EvGetUserInfo u (Err e)]))
    as [names [r' tr']]. cbn [fst snd] in Hc, Hr |- *.
  exists r', tr'. split; [done |].
  rewrite <- Hr. by apply Resolve_miss_trace.
Qed.

Lemma failed_lookup_not_cached_witness :
  Resolve "U999" (NewUserResolver demo_client, [])
  = ("U999",
     (NewUserResolver demo_client,
      [] ++ [EvGetUserInfo "U999" (Err "user_not_found")])).
Proof.
  apply (failed_lookup_not_cached (NewUserResolver demo_client) [] "U999"
           "user_not_found" ["U001"]).
  - discriminate.
  - reflexivity.
  - reflexivity.
  - apply not_elem_of_cons. split; [discriminate | apply not_elem_of_nil].
Defined.

End Resolver.

(** ** ResolveMentions *)

Section Mentions.

Lemma bytes_app (a b : string) : bytes (a +:+ b) = bytes a ++ bytes b.
Proof.
  induction a as [|c a IH]; [done |].
  rewrite str_app_cons. cbn. by f_equal.
Qed.

(** Two ways of writing one string as a concatenation share the shorter
    front part. *)
Lemma app_eq_app_str (a x b y : string) :
  a +:+ x = b +:+ y ->
  (exists d, b = a +:+ d /\ x = d +:+ y) \/
  (exists d, a = b +:+ d /\ y = d +:+ x).
Proof.
  revert b. induction a as [|c a IH]; intros b E.
  - left. by exists b.
  - destruct b as [|c' b].
    + right. by exists (String c a).
    + rewrite !str_app_cons in E. injection E as -> E.
      destruct (IH b E) as [(d & -> & ->) | (d & -> & ->)].
      * left. by exists d.
      * right. by exists d.
Qed.

Lemma is_id_byte_spec (c : ascii) :
  is_id_byte c = true <-> is_upper c \/ is_digit c.
Proof.
  unfold is_id_byte, is_upper, is_digit.
  rewrite orb_true_iff, !andb_true_iff, !Z.leb_le. tauto.
Qed.

Lemma span_id_app (t r : string) :
  Forall (fun x => is_upper x \/ is_digit x) (bytes t) ->
  (r = "" \/ exists c r', r = String c r' /\ is_id_byte c = false) ->
  span_id (t +:+ r) = (t, r).
Proof.
  intros Hall Hr. induction t as [|c t IH].
  - destruct Hr as [-> | (c & r' & -> & Hc)]; [done |].
    rewrite str_app_nil_l. cbn [span_id]. by rewrite Hc.
  - change (bytes (String c t)) with (c :: bytes t) in Hall.
    apply Forall_cons in Hall as [Hc Hall].
    rewrite str_app_cons. cbn [span_id].
    apply is_id_byte_spec in Hc. rewrite Hc, (IH Hall). done.
Qed.

Lemma span_id_inv (s run rest : string) :
  span_id s = (run, rest) ->
  s = run +:+ rest /\ Forall (fun x => is_upper x \/ is_digit x) (bytes run).
Proof.
  revert run rest. induction s as [|c s IH]; intros run rest E.
  - injection E as <- <-. by split.
  - cbn [span_id] in E. destruct (is_id_byte c) eqn:Hc.
    + destruct (span_id s) as [run' rest'].
      injection E as <- <-. destruct (IH run' rest' eq_refl) as [-> Hall].
      split; [done |].
      change (bytes (String c run')) with (c :: bytes run').
      constructor; [by apply is_id_byte_spec | done].
    + injection E as <- <-. by split.
Qed.

Lemma match_here_intro (id rest : string) :
  valid_user_id id -> match_here (mention id +:+ rest) = Some (id, rest).
Proof.
  intros (t & -> & Ht & Hall). unfold mention.
  change (("<@" +:+ String "U" t +:+ ">") +:+ rest)
    with (String "<" (String "@" (String "U" ((t +:+ ">") +:+ rest)))).
  cbn [match_here]. rewrite str_app_assoc.
  rewrite (span_id_app t (">" +:+ rest) Hall);
    [| right; by exists ">"%char, rest].
  destruct t; done.
Qed.

Lemma match_here_inv (s id rest : string) :
  match_here s = Some (id, rest) ->
  valid_user_id id /\ s = mention id +:+ rest.
Proof.
  unfold match_here. intros E.
  repeat (match type of E with
          | match ?x with _ => _ end = _ => destruct x eqn:?; try discriminate
          | (if ?b then _ else _) = _ => destruct b eqn:?; try discriminate
          end).
  injection E as <- <-. subst.
  match goal with H : span_id _ = _ |- _ =>
    apply span_id_inv in H as [-> Hall] end.
  split.
  - eexists. split; [reflexivity |]. split; [discriminate | done].
  - unfold mention. rewrite !str_app_assoc. reflexivity.
Qed.

Lemma no_mention_in_empty : ~ has_mention "".
Proof. intros ([|? ?] & id & post & _ & E); discriminate. Qed.

Lemma has_mention_cons (c : ascii) (s : string) :
  has_mention (String c s) <->
  (exists id rest, match_here (String c s) = Some (id, rest)) \/
  has_mention s.
Proof.
  split.
  - intros ([|x pre] & id & post & Hid & E).
    + left. exists id, post. rewrite E. by apply match_here_intro.
    + right. rewrite str_app_cons in E. injection E as -> ->.
      by exists pre, id, post.
  - intros [(id & rest & E) | (pre & id & post & Hid & ->)].
    + apply match_here_inv in E as [Hid E].
      exists "", id, rest. by rewrite str_app_nil_l.
    + by exists (String c pre), id, post.
Qed.

Lemma find_match_some (s : string) (m : Match) :
  find_match s = Some m ->
  s = m_before m +:+ mention (m_group m) +:+ m_after m /\
  m_whole m = mention (m_group m) /\
  valid_user_id (m_group m) /\
  ~ has_mention (m_before m).
Proof.
  revert m. induction s as [|c s IH]; intros m E; [discriminate |].
  cbn [find_match] in E.
  destruct (match_here (String c s)) as [[id rest] |] eqn:Hm.
  - injection E as <-. cbn.
    apply match_here_inv in Hm as [Hid ->].
    split; [done |]. split; [done |]. split; [done |].
    apply no_mention_in_empty.
  - destruct (find_match s) as [m' |] eqn:Hf; [| discriminate].
    injection E as <-. cbn.
    destruct (IH m' eq_refl) as (Es & Hw & Hid & Hbefore).
    split; [by rewrite str_app_cons, <- Es |].
    split; [done |]. split; [done |].
    rewrite has_mention_cons. intros [(id & rest & E) | Hb]; [| done].
    apply match_here_inv in E as [Hid' E].
    assert (match_here (String c s)
            = Some (id, rest +:+ mention (m_group m') +:+ m_after m'))
      as Hm'.
    { rewrite Es, <- str_app_cons, E, str_app_assoc.
      by apply match_here_intro. }
    congruence.
Qed.

Lemma find_match_none (s : string) :
  find_match s = None <-> ~ has_mention s.
Proof.
  induction s as [|c s IH].
  - split; [intros _; apply no_mention_in_empty | done].
  - rewrite has_mention_cons. cbn [find_match].
    destruct (match_here (String c s)) as [[id rest] |] eqn:Hm.
    + split; [discriminate |]. intros Hno. exfalso. apply Hno. eauto.
    + destruct (find_match s) as [m |] eqn:Hf.
      * split; [discriminate |]. intros Hno. exfalso.
        apply Hno. right.
        destruct (find_match_some s m Hf) as (Es & _ & Hid & _).
        by exists (m_before m), (m_group m), (m_after m).
      * split; [| done]. intros _ [(id & rest & [=]) | Hs].
        by apply IH in Hs.
Qed.

(** Behind its first byte a mention holds no [<]. *)
Lemma mention_tail_no_open (id : string) :
  valid_user_id id ->
  exists tail, mention id = String "<" tail /\ "<"%char ∉ bytes tail.
Proof.
  intros (t & -> & _ & Hall).
  exists ("@" +:+ String "U" t +:+ ">"). split; [done |].
  assert ("<"%char ∉ bytes t) as Ht.
  { intros Hin. rewrite Forall_forall in Hall.
    destruct (Hall _ Hin) as [H | H];
      unfold is_upper, is_digit, byteZ in H; simpl in H; lia. }
  change (bytes ("@" +:+ String "U" t +:+ ">"))
    with ("@"%char :: "U"%char :: bytes (t +:+ ">")).
  rewrite bytes_app. cbn.
  rewrite !not_elem_of_cons, not_elem_of_app, not_elem_of_cons.
  repeat split; try done. apply not_elem_of_nil.
Qed.

Lemma match_here_not_across (p id rest : string) :
  p <> "" -> ~ has_mention p -> valid_user_id id ->
  match_here (p +:+ mention id +:+ rest) = None.
Proof.
  intros Hp Hfree Hid.
  destruct (match_here (p +:+ mention id +:+ rest)) as [[id' rest'] |] eqn:E;
    [| done].
  exfalso. apply match_here_inv in E as [Hid' E].
  apply app_eq_app_str in E as [(d & E1 & E2) | (d & E1 & E2)].
  - (* the match runs beyond [p]: it holds the [<] of the mention *)
    destruct d as [|x d].
    { apply Hfree. exists "", id', "".
      rewrite str_app_nil_r in E1. split; [done |].
      by rewrite str_app_nil_l, str_app_nil_r. }
    destruct (mention_tail_no_open id Hid) as (tail & Etail & _).
    rewrite Etail, !str_app_cons in E2. injection E2 as <- E2.
    destruct (mention_tail_no_open id' Hid') as (tail' & Etail' & Hno).
    destruct p as [|c p]; [done |].
    rewrite Etail', !str_app_cons in E1. injection E1 as _ E1.
    apply Hno. rewrite E1, bytes_app. apply elem_of_app. right.
    change (bytes (String "<" d)) with ("<"%char :: bytes d).
    apply elem_of_cons. by left.
  - (* the match ends within [p] *)
    apply Hfree. by exists "", id', d.
Qed.

Lemma find_match_intro (p id rest : string) :
  ~ has_mention p -> valid_user_id id ->
  find_match (p +:+ mention id +:+ rest)
  = Some {| m_before := p; m_whole := mention id;
            m_group := id; m_after := rest |}.
Proof.
  intros Hfree Hid. induction p as [|c p IH].
  - rewrite str_app_nil_l.
    destruct (mention_tail_no_open id Hid) as (tail & Etail & _).
    pose proof (match_here_intro id rest Hid) as Hm.
    rewrite Etail, str_app_cons in Hm |- *.
    cbn [find_match]. rewrite Hm. by rewrite <- Etail.
  - pose proof (match_here_not_across (String c p) id rest
                  ltac:(discriminate) Hfree Hid) as Hm.
    rewrite str_app_cons in Hm |- *. cbn [find_match]. rewrite Hm.
    rewrite IH; [done |].
    intros Hp. apply Hfree. apply has_mention_cons. by right.
Qed.

Lemma ResolveMentions_func_mention (id : string) (st : UserResolver * Trace) :
  valid_user_id id ->
  ResolveMentions_func (mention id) st
  = (name ← Resolve id; mret ("@" +:+ name)) st.
Proof.
  intros Hid. unfold ResolveMentions_func, FindStringSubmatch.
  pose proof (find_match_intro "" id "" no_mention_in_empty Hid) as Hf.
  rewrite str_app_nil_l, str_app_nil_r in Hf. by rewrite Hf.
Qed.

Lemma replace_without_mention (fuel : nat) (s : string)
  (st : UserResolver * Trace) :
  ~ has_mention s ->
  ReplaceAllStringFunc fuel s ResolveMentions_func st = (s, st).
Proof.
  intros Hfree. apply find_match_none in Hfree.
  destruct fuel; [done |]. cbn [ReplaceAllStringFunc]. by rewrite Hfree.
Qed.

Lemma replace_well_cut (parts : list (string * string)) (last : string) :
  well_cut parts last ->
  forall (fuel : nat) (st : UserResolver * Trace),
    length parts <= fuel ->
    ReplaceAllStringFunc fuel (with_mentions parts last)
      ResolveMentions_func st
    = with_names parts last st.
Proof.
  intros [Hparts Hlast].
  induction parts as [|[plain id] parts IH]; intros fuel st Hfuel.
  - by apply replace_without_mention.
  - apply Forall_cons in Hparts as [[Hplain Hid] Hparts]. simpl in *.
    destruct fuel as [|fuel]; [lia |].
    cbn [ReplaceAllStringFunc].
    rewrite (find_match_intro plain id _ Hplain Hid).
    unfold mbind, mret, Method_bind, Method_ret. cbn [m_whole m_after m_before].
    rewrite (ResolveMentions_func_mention id st Hid).
    unfold mbind, mret, Method_bind, Method_ret.
    destruct (Resolve id st) as [name st1].
    rewrite (IH Hparts fuel st1) by lia.
    by destruct (with_names parts last st1) as [out st2].
Qed.

Lemma well_cut_length (parts : list (string * string)) (last : string) :
  length parts <= String.length (with_mentions parts last).
Proof.
  induction parts as [|[plain id] parts IH]; simpl; [lia |].
  rewrite str_length_app. unfold mention.
  rewrite !str_app_cons. simpl. rewrite !str_length_app. lia.
Qed.

Lemma cut_exists (n : nat) :
  forall text : string,
    String.length text <= n ->
    exists (parts : list (string * string)) (last : string),
      well_cut parts last /\ text = with_mentions parts last.
Proof.
  induction n as [|n IH]; intros text Hlen.
  - destruct text; [| simpl in Hlen; lia].
    exists [], "". split; [| done].
    split; [done | apply no_mention_in_empty].
  - destruct (find_match text) as [m |] eqn:Hf.
    + destruct (find_match_some text m Hf) as (E & _ & Hid & Hbefore).
      destruct (IH (m_after m)) as (parts & last & [Hparts Hlast] & Eafter).
      { apply (f_equal String.length) in E.
        rewrite !str_length_app in E. unfold mention in E.
        rewrite !str_app_cons in E. simpl in E. lia. }
      exists ((m_before m, m_group m) :: parts), last. split.
      * split; [| done]. by constructor.
      * simpl. by rewrite <- Eafter.
    + exists [], text. split; [| done].
      split; [done | by apply find_match_none].
Qed.

(** C6. [ResolveMentions] replaces every mention markup, [<@] then an ID
    made of [U] and uppercase letters or digits, then [>], by [@] and the
    name that [Resolve] returns for the ID, and copies every other byte:
    a text cut at all its mentions comes out as the same plain chunks with
    the names in place of the mentions, the IDs being resolved from left to
    right, and every text can be cut in this way.  An ID that cannot be
    resolved comes out as [@] and the ID, [Resolve] returning the ID. *)
Theorem ResolveMentions_spec :
  (forall (parts : list (string * string)) (last : string)
          (st : UserResolver * Trace),
     well_cut parts last ->
     ResolveMentions (with_mentions parts last) st = with_names parts last st)
  /\
  (forall text : string,
     exists (parts : list (string * string)) (last : string),
       well_cut parts last /\ text = with_mentions parts last) /\
  fst (ResolveMentions "<@U001> and <@U002>" (NewUserResolver demo_client, []))
  = "@alice and @bob" /\
  fst (ResolveMentions "hey <@U999>" (NewUserResolver demo_client, []))
  = "hey @U999".
Proof.
  split; [| split; [| split; reflexivity]].
  - intros parts last st Hcut. unfold ResolveMentions.
    apply replace_well_cut; [done | apply well_cut_length].
  - intros text. by apply (cut_exists (String.length text)).
Qed.

Lemma ResolveMentions_spec_witness :
  ResolveMentions (with_mentions greeting "!") (NewUserResolver demo_client, [])
  = with_names greeting "!" (NewUserResolver demo_client, []).
Proof.
  apply (proj1 ResolveMentions_spec greeting "!"
           (NewUserResolver demo_client, [])).
  split.
  - constructor; [| constructor]. split.
    + apply find_match_none. reflexivity.
    + exists "001". split; [reflexivity |]. split; [discriminate |].
      repeat (apply Forall_cons_2;
                [right; unfold is_digit, byteZ; simpl; lia |]).
      apply Forall_nil_2.
  - apply find_match_none. reflexivity.
Defined.

End Mentions.

(** * Further properties of the modelled code *)

(** ** ResolveChannel and lookupChannelByName *)

Section ChannelLookup.

(** X1. A token that is empty, or only a [#], is refused with "channel
    cannot be empty" and nothing is called. *)
Theorem ResolveChannel_empty_token (env : Env) (c : Client) (token : string)
  (tr : Trace) :
  strip_hash token = "" ->
  ResolveChannel env c token tr = (Err "channel cannot be empty", tr).
Proof.
  intros Hempty. unfold ResolveChannel.
  rewrite TrimPrefix_hash, Hempty. reflexivity.
Qed.

Lemma ResolveChannel_empty_token_witness :
  ResolveChannel (demo_env [] []) demo_client "#" []
  = (Err "channel cannot be empty", []).
Proof.
  apply (ResolveChannel_empty_token (demo_env [] []) demo_client "#" []).
  reflexivity.
Defined.

Lemma ResolveChannel_name_path (env : Env) (c : Client) (token : string)
  (tr : Trace) :
  is_name_token token ->
  ResolveChannel env c token tr
  = lookupChannelByName env c (strip_hash token) tr.
Proof.
  intros [Hne Hid]. unfold ResolveChannel.
  rewrite TrimPrefix_hash, Hid.
  by destruct (decide (strip_hash token = "")).
Qed.

Lemma lookupChannelByName_run (env : Env) (c : Client) (name : string)
  (tr : Trace) :
  lookupChannelByName env c name tr
  = match ListChannels c tr "public_channel,private_channel" false 1000 with
    | Err e => (Err ("failed to list channels: " +:+ e), tr ++ [listing_call])
    | Ok channels =>
      match find (fun ch =>
                    strings_EqualFold env (ch_Name ch)
                      (strings_ToLower env (strip_hash name))) channels with
      | Some ch => (Ok (ch_ID ch), tr ++ [listing_call])
      | None =>
        (Err ("channel '" +:+ strings_ToLower env (strip_hash name) +:+
              "' not found. Use 'slck channels list' to see available channels"),
         tr ++ [listing_call])
      end
    end.
Proof.
  unfold lookupChannelByName. rewrite run_call_bind, TrimPrefix_hash.
  destruct (ListChannels c tr _ _ _) as [channels | e]; [| done].
  by destruct (find _ channels).
Qed.

(** X2. A token that takes the name path costs exactly one call, the
    listing of public and private channels, archived ones included, with a
    limit of 1000, whether the channel is found or not. *)
Theorem ResolveChannel_name_one_listing (env : Env) (c : Client)
  (token : string) (tr : Trace) :
  is_name_token token ->
  snd (ResolveChannel env c token tr)
  = tr ++ [EvListChannels "public_channel,private_channel" false 1000].
Proof.
  intros Hname. rewrite (ResolveChannel_name_path env c token tr Hname).
  rewrite lookupChannelByName_run.
  destruct (ListChannels c tr _ _ _) as [channels | e]; [| done].
  by destruct (find _ channels).
Qed.

Lemma ResolveChannel_name_one_listing_witness :
  snd (ResolveChannel (demo_env [] []) demo_client "#General" [])
  = [] ++ [EvListChannels "public_channel,private_channel" false 1000].
Proof.
  apply (ResolveChannel_name_one_listing (demo_env [] []) demo_client
           "#General" []).
  split; [discriminate | vm_compute; reflexivity].
Defined.

Lemma find_first_match {X : Type} (f : X -> bool) (pre post : list X)
  (x : X) :
  Forall (fun y => f y = false) pre -> f x = true ->
  find f (pre ++ x :: post) = Some x.
Proof.
  intros Hpre Hx. induction Hpre as [|y pre Hy _ IH]; simpl.
  - by rewrite Hx.
  - by rewrite Hy.
Qed.

Lemma find_no_match {X : Type} (f : X -> bool) (l : list X) :
  Forall (fun y => f y = false) l -> find f l = None.
Proof.
  intros Hl. induction Hl as [|y l Hy _ IH]; simpl; [done |].
  by rewrite Hy.
Qed.

(** X3. On the name path the channel returned is the first one of the
    listing whose name equals, letter case apart, the token in lower case
    without its leading [#]; channels listed before it that do not match
    are passed over, channels listed after it are not looked at. *)
Theorem ResolveChannel_first_match (env : Env) (c : Client) (token : string)
  (tr : Trace) (pre post : list Channel) (ch : Channel) :
  is_name_token token ->
  ListChannels c tr "public_channel,private_channel" false 1000
  = Ok (pre ++ ch :: post) ->
  Forall (fun other => ~ names_channel env token other) pre ->
  names_channel env token ch ->
  fst (ResolveChannel env c token tr) = Ok (ch_ID ch).
Proof.
  intros Hname Hlist Hpre Hch.
  rewrite (ResolveChannel_name_path env c token tr Hname).
  rewrite lookupChannelByName_run, Hlist.
  rewrite (find_first_match _ pre post ch); [done | | exact Hch].
  eapply Forall_impl; [exact Hpre |].
  intros other Hother. unfold names_channel, lookup_name in Hother.
  by destruct (strings_EqualFold env (ch_Name other) _).
Qed.

Lemma ResolveChannel_first_match_witness :
  fst (ResolveChannel (demo_env [] []) demo_client "#General" [])
  = Ok "C111111".
Proof.
  apply (ResolveChannel_first_match (demo_env [] []) demo_client "#General"
           [] [] [] {| ch_ID := "C111111"; ch_Name := "general" |}).
  - split; [discriminate | vm_compute; reflexivity].
  - reflexivity.
  - constructor.
  - vm_compute. reflexivity.
Defined.

(** X4. On the name path, when no listed channel goes by the name, the
    error quotes the name as it was looked up (lower case, no leading [#])
    and says to use 'slck channels list'; when the listing itself fails, its
    error is passed on behind "failed to list channels: ". *)
Theorem ResolveChannel_not_found (env : Env) (c : Client) (token : string)
  (tr : Trace) :
  is_name_token token ->
  (forall channels : list Channel,
     ListChannels c tr "public_channel,private_channel" false 1000
     = Ok channels ->
     Forall (fun other => ~ names_channel env token other) channels ->
     fst (ResolveChannel env c token tr)
     = Err ("channel '" +:+ lookup_name env token +:+
            "' not found. Use 'slck channels list' to see available channels"))
  /\
  (forall e : error,
     ListChannels c tr "public_channel,private_channel" false 1000 = Err e ->
     fst (ResolveChannel env c token tr)
     = Err ("failed to list channels: " +:+ e)).
Proof.
  intros Hname.
  rewrite (ResolveChannel_name_path env c token tr Hname).
  rewrite lookupChannelByName_run. split.
  - intros channels -> Hnone.
    rewrite find_no_match; [done |].
    eapply Forall_impl; [exact Hnone |].
    intros other Hother. unfold names_channel, lookup_name in Hother.
    by destruct (strings_EqualFold env (ch_Name other) _).
  - by intros e ->.
Qed.

Lemma ResolveChannel_not_found_witness :
  fst (ResolveChannel (demo_env [] []) demo_client "nonexistent" [])
  = Err ("channel '" +:+ lookup_name (demo_env [] []) "nonexistent" +:+
         "' not found. Use 'slck channels list' to see available channels").
Proof.
  assert (is_name_token "nonexistent") as Hname.
  { split; [discriminate | vm_compute; reflexivity]. }
  apply (proj1 (ResolveChannel_not_found (demo_env [] []) demo_client
                  "nonexistent" [] Hname)
           [{| ch_ID := "C111111"; ch_Name := "general" |}]).
  - reflexivity.
  - constructor; [| constructor]. vm_compute. discriminate.
Defined.

(** X5. A leading [#] makes no difference: a token and the same token with
    one [#] in front are resolved in the same way, with the same calls.  A
    name is even found behind two, because the name lookup strips a [#] of
    its own. *)
Theorem ResolveChannel_hash_insensitive (env : Env) (c : Client)
  (token : string) (tr : Trace) :
  strip_hash token = token ->
  ResolveChannel env c ("#" +:+ token) tr = ResolveChannel env c token tr /\
  (is_name_token token ->
   ResolveChannel env c ("##" +:+ token) tr = ResolveChannel env c token tr).
Proof.
  intros Hplain. split.
  - unfold ResolveChannel. rewrite !TrimPrefix_hash, Hplain. reflexivity.
  - intros Hname.
    assert (is_name_token ("##" +:+ token)) as Hname2.
    { split; [discriminate |].
      change (strip_hash ("##" +:+ token)) with (String "#" token).
      unfold IsChannelID. by destruct (String.length (String "#" token) <? 2). }
    rewrite (ResolveChannel_name_path env c _ tr Hname2).
    rewrite (ResolveChannel_name_path env c _ tr Hname).
    rewrite !lookupChannelByName_run.
    change (strip_hash ("##" +:+ token)) with ("#" +:+ token).
    change (strip_hash ("#" +:+ token)) with token.
    by rewrite !Hplain.
Qed.

Lemma ResolveChannel_hash_insensitive_witness :
  ResolveChannel (demo_env [] []) demo_client ("#" +:+ "general") []
  = ResolveChannel (demo_env [] []) demo_client "general" [] /\
  (is_name_token "general" ->
   ResolveChannel (demo_env [] []) demo_client ("##" +:+ "general") []
   = ResolveChannel (demo_env [] []) demo_client "general" []).
Proof.
  apply (ResolveChannel_hash_insensitive (demo_env [] []) demo_client
           "general" []).
  reflexivity.
Defined.

End ChannelLookup.

(** ** runSend: validation and what is sent *)

Lemma run_bind_assoc {A B C : Type} (m : Exec A) (f : A -> Exec B)
  (g : B -> Exec C) (tr : Trace) :
  ((m ≫= f) ≫= g) tr = (m ≫= fun a => f a ≫= g) tr.
Proof.
  unfold mbind, Exec_bind. by destruct (m tr) as [[a | e] tr'].
Qed.

Lemma bool_decide_refl (s : string) : bool_decide (s = s) = true.
Proof. by apply bool_decide_eq_true. Qed.

(** Running a program as far as its text shows what comes next. *)
Ltac run :=
  repeat first
    [ rewrite run_bind_assoc | rewrite run_ret_bind | rewrite run_call_bind
    | rewrite run_fail_bind | rewrite nonempty_empty
    | rewrite bool_decide_refl
    | progress cbn beta iota zeta
            delta [andb negb Nat.ltb Nat.leb blocksOptionsCount
                   set_threadTS threadTS blocksJSON blocksFile blocksStdin
                   simple noUnfurl files fileTitle length] ].

Section SendMore.


Lemma run_thread_stage {B : Type} (env : Env) (opts : sendOptions)
  (k : string -> Exec B) (tr : Trace) :
  thread_ok env opts ->
  ((if nonempty (threadTS opts)
    then match validate_Timestamp env (threadTS opts) with
         | Some err => fail err
         | None => mret (validate_NormalizeTimestamp env (threadTS opts))
         end
    else mret (threadTS opts)) ≫= k) tr
  = k (thread_sent env opts) tr.
Proof.
  intros Hts. unfold thread_sent.
  destruct (nonempty (threadTS opts)) eqn:Hn; [| done].
  destruct Hts as [Hempty | ->]; [| done].
  apply nonempty_true in Hn. done.
Qed.

(** X6. An empty text with no blocks source and no file is refused with
    the empty-message error before a client is made and before any call:
    the trace is left as it was.  The same error follows a text read from a
    standard input that holds nothing, the read being the only thing
    done. *)
Theorem runSend_empty_message (env : Env) (channel : string)
  (opts : sendOptions) (c : option Client) (tr : Trace) :
  thread_ok env opts ->
  blocksJSON opts = "" -> blocksFile opts = "" -> blocksStdin opts = false ->
  files opts = [] ->
  runSend env channel "" opts c tr = (Err empty_message, tr) /\
  (stdin_Scan env tr = Ok [] ->
   runSend env channel "-" opts c tr
   = (Err empty_message, tr ++ [EvReadStdin])).
Proof.
  intros Hts. destruct opts as [ts bj bf bs si nu fi ft]. simpl.
  intros -> -> -> ->. split.
  - unfold runSend. rewrite run_thread_stage by done. reflexivity.
  - intros Hscan. unfold runSend. rewrite run_thread_stage by done.
    unfold read_stdin. run. rewrite Hscan. run. reflexivity.
Qed.



Lemma emits_fail_bind {A B : Type} (P : Event -> Prop) (R : B -> Prop)
  (e : error) (f : A -> Exec B) :
  emits P R (fail e ≫= f).
Proof.
  intros tr. exists []. rewrite run_fail_bind, app_nil_r.
  split; [done |]. split; [done |]. by intros ? [=].
Qed.

Lemma uploadFiles_loop_emits (P : Event -> Prop) (env : Env) (c : Client)
  (opts : sendOptions) (todo : list string) :
  (forall ev, upload_step ev -> P ev) ->
  forall uploaded, emits P any (uploadFiles_loop env c opts todo uploaded).
Proof.
  intros HP. induction todo as [|filePath todo IH]; intros uploaded.
  - by apply emits_ret.
  - cbn [uploadFiles_loop].
    repeat first [ apply IH | emits_step ]; by apply HP.
Qed.

Lemma uploadFiles_emits (P : Event -> Prop) (env : Env) (c : Client)
  (channelID text : string) (opts : sendOptions) :
  (forall ev, upload_step ev -> P ev) ->
  (forall uploaded,
     P (EvCompleteUploadExternal uploaded channelID (threadTS opts) text)) ->
  emits P any (uploadFiles env c channelID text opts).
Proof.
  intros HP Hdone. unfold uploadFiles.
  apply (emits_bind _ any); [by apply uploadFiles_loop_emits |].
  intros uploaded _.
  repeat emits_step; first [ apply Hdone | by apply HP ].
Qed.

(** X8. With at least one file, [runSend] never sends a chat message,
    whatever the text and whatever blocks source was given. *)
Theorem runSend_files_send_nothing (env : Env) (channel text : string)
  (opts : sendOptions) (c : option Client) :
  files opts <> [] ->
  emits sends_nothing any (runSend env channel text opts c).
Proof.
  destruct opts as [ts bj bf bs si nu fi ft]. simpl. intros Hfiles.
  destruct fi as [|file fi]; [done |].
  unfold runSend, read_stdin.
  cbn beta iota zeta delta [set_threadTS threadTS blocksJSON blocksFile
                            blocksStdin simple noUnfurl files fileTitle
                            length Nat.ltb Nat.leb].
  repeat first
    [ apply uploadFiles_emits; [by intros [] | done]
    | apply ResolveChannel_emits; done
    | emits_step ]; done.
Qed.

(** X9. With [--simple] and no blocks source, every message goes out
    without blocks. *)
Theorem runSend_simple_no_blocks (env : Env) (channel text : string)
  (opts : sendOptions) (c : option Client) :
  simple opts = true ->
  blocksJSON opts = "" -> blocksFile opts = "" -> blocksStdin opts = false ->
  emits sends_without_blocks any (runSend env channel text opts c).
Proof.
  destruct opts as [ts bj bf bs si nu fi ft]. simpl. intros -> -> -> ->.
  unfold runSend, read_stdin.
  cbn beta iota zeta delta [set_threadTS threadTS blocksJSON blocksFile
                            blocksStdin simple noUnfurl files fileTitle].
  rewrite !nonempty_empty.
  repeat first
    [ apply uploadFiles_emits; [by intros [] | done]
    | apply ResolveChannel_emits; done
    | emits_step ]; done.
Qed.

(** X10. Whatever is sent carries the thread timestamp in its normalized
    form (or none, if none was given), be it a message or the finalize call
    of an upload; and a message has link and media unfurling switched on
    exactly when [--no-unfurl] is absent. *)
Theorem runSend_thread_and_unfurl (env : Env) (channel text : string)
  (opts : sendOptions) (c : option Client) :
  emits (sends_with (thread_sent env opts) (negb (noUnfurl opts))) any
    (runSend env channel text opts c).
Proof.
  destruct opts as [ts bj bf bs si nu fi ft].
  unfold thread_sent. simpl.
  unfold runSend, read_stdin.
  cbn beta iota zeta delta [set_threadTS threadTS blocksJSON blocksFile
                            blocksStdin simple noUnfurl files fileTitle].
  destruct (nonempty ts) eqn:Hn;
    [destruct (validate_Timestamp env ts) as [err |] |].
  - apply emits_fail_bind.
  - apply emits_ret_bind.
    repeat first
      [ apply uploadFiles_emits; [by intros [] | done]
      | apply ResolveChannel_emits; done
      | emits_step ]; done.
  - apply emits_ret_bind.
    repeat first
      [ apply uploadFiles_emits; [by intros [] | done]
      | apply ResolveChannel_emits; done
      | emits_step ]; done.
Qed.


End SendMore.

Section SendEdges.

Lemma join_push (sep a x : string) (l : list string) :
  join sep ((a +:+ sep +:+ x) :: l) = a +:+ sep +:+ join sep (x :: l).
Proof.
  destruct l as [|y l]; [done |].
  change (join sep ((a +:+ sep +:+ x) :: y :: l))
    with ((a +:+ sep +:+ x) +:+ sep +:+ join sep (y :: l)).
  change (join sep (x :: y :: l)) with (x +:+ sep +:+ join sep (y :: l)).
  by rewrite !str_app_assoc.
Qed.

Lemma append_lines_from (lines : list string) :
  forall acc : string,
    acc <> "" ->
    fold_left append_line lines acc = join newline (acc :: lines).
Proof.
  induction lines as [|x lines IH]; intros acc Hacc; [done |].
  cbn [fold_left].
  assert (append_line acc x = acc +:+ newline +:+ x) as ->.
  { unfold append_line. destruct acc; [done |]. cbn.
    by rewrite str_app_assoc. }
  rewrite IH; [by rewrite join_push |].
  by destruct acc.
Qed.

Lemma append_lines (lines : list string) :
  fold_left append_line lines ""
  = join newline (drop_leading_empty lines).
Proof.
  induction lines as [|x lines IH]; [done |].
  cbn [fold_left drop_leading_empty].
  destruct (decide (x = "")) as [-> | Hx]; [exact IH |].
  change (append_line "" x) with x. by apply append_lines_from.
Qed.

(** X11. A text read from standard input is its lines joined by newlines,
    except that empty lines at the very start are lost: no newline is put
    in front of a line as long as nothing has been gathered.  A read error
    is passed on behind the given label. *)
Theorem read_stdin_joins_lines (env : Env) (what : string) (tr : Trace) :
  (forall lines : list string,
     stdin_Scan env tr = Ok lines ->
     read_stdin env what tr
     = (Ok (join newline (drop_leading_empty lines)), tr ++ [EvReadStdin]))
  /\
  (forall e : error,
     stdin_Scan env tr = Err e ->
     read_stdin env what tr = (Err (what +:+ e), tr ++ [EvReadStdin])).
Proof.
  split.
  - intros lines Hscan. unfold read_stdin.
    rewrite run_call_bind, Hscan. by rewrite append_lines.
  - intros e Hscan. unfold read_stdin. by rewrite run_call_bind, Hscan.
Qed.

Lemma read_stdin_joins_lines_witness :
  read_stdin (demo_env [""; "Line 1"; ""; "Line 2"] []) "reading stdin: " []
  = (Ok (join newline (drop_leading_empty [""; "Line 1"; ""; "Line 2"])),
     [] ++ [EvReadStdin]).
Proof.
  apply (proj1 (read_stdin_joins_lines
                  (demo_env [""; "Line 1"; ""; "Line 2"] [])
                  "reading stdin: " [])).
  reflexivity.
Defined.



Lemma runSend_empty_message_witness :
  runSend (demo_env [] []) "C123456789" "" plain_options None []
  = (Err empty_message, []) /\
  (stdin_Scan (demo_env [] []) [] = Ok [] ->
   runSend (demo_env [] []) "C123456789" "-" plain_options None []
   = (Err empty_message, [] ++ [EvReadStdin])).
Proof.
  apply (runSend_empty_message (demo_env [] []) "C123456789" plain_options
           None []).
  - left. reflexivity.
  - reflexivity.
  - reflexivity.
  - reflexivity.
  - reflexivity.
Defined.


Lemma runSend_files_send_nothing_witness :
  emits sends_nothing any
    (runSend (demo_env [] disk_with_a) "C123456789" "Here" two_files None).
Proof.
  apply (runSend_files_send_nothing (demo_env [] disk_with_a) "C123456789"
           "Here" two_files None).
  discriminate.
Defined.

Lemma runSend_simple_no_blocks_witness :
  emits sends_without_blocks any
    (runSend (demo_env [] []) "C123" "Hello World" simple_options None).
Proof.
  apply (runSend_simple_no_blocks (demo_env [] []) "C123" "Hello World"
           simple_options None); reflexivity.
Defined.

End SendEdges.

(** ** uploadFiles: the whole batch *)

Section UploadMore.

Lemma shared_title_spec (env : Env) (opts : sendOptions) (path : string) :
  (if nonempty (fileTitle opts) then fileTitle opts
   else filepath_Base env path)
  = shared_title env opts path.
Proof.
  unfold shared_title.
  destruct (decide (fileTitle opts = "")) as [E | E].
  - by rewrite (proj2 (nonempty_false _) E).
  - by rewrite (proj2 (nonempty_true _) E).
Qed.

Lemma uploadFiles_loop_success (env : Env) (c : Client) (opts : sendOptions)
  (size : string -> Z) (slot : string -> UploadURLResponse)
  (todo : list string) :
  all_uploads_succeed env c size slot todo ->
  forall (uploaded : list CompleteUploadExternalFile) (tr : Trace),
    uploadFiles_loop env c opts todo uploaded tr
    = (Ok (uploaded ++ map (upload_handle env opts slot) todo),
       tr ++ concat (map (upload_events env size slot) todo)).
Proof.
  induction todo as [|path todo IH]; intros Hall uploaded tr.
  - cbn. by rewrite !app_nil_r.
  - cbn [uploadFiles_loop].
    assert (forall tr', os_Stat env tr' path = Ok (size path) /\
              GetUploadURLExternal c tr' (filepath_Base env path) (size path)
              = Ok (slot path) /\
              os_Open env tr' path = None /\
              UploadFileToURL c tr' (UploadURL (slot path)) path = None)
      as Hpath.
    { intros tr'. apply Hall. apply elem_of_cons. by left. }
    rewrite run_call_bind, (proj1 (Hpath tr)).
    cbn beta iota zeta.
    rewrite run_call_bind. cbn beta.
    rewrite run_call_bind, (proj1 (proj2 (Hpath _))). cbn beta iota.
    rewrite run_call_bind, (proj1 (proj2 (proj2 (Hpath _)))). cbn beta iota.
    rewrite run_call_bind, (proj2 (proj2 (proj2 (Hpath _)))). cbn beta iota.
    rewrite shared_title_spec.
    rewrite IH.
    + cbn [map concat]. rewrite <- !app_assoc. reflexivity.
    + intros p tr' Hp. apply Hall. apply elem_of_cons. by right.
Qed.

(** X13. When every file can be stat'ed, gets its slot, can be opened and
    is transferred, and the finalize call succeeds, [uploadFiles] handles
    the files one after the other in the order given, each with its stat,
    slot request and transfer, and then makes one finalize call that names
    every file once, in the same order, under the [--file-title] or else
    its base name, with the channel, the thread and the text as comment. *)
Theorem uploadFiles_all_succeed (env : Env) (c : Client)
  (channelID text : string) (opts : sendOptions) (size : string -> Z)
  (slot : string -> UploadURLResponse) (tr : Trace) :
  all_uploads_succeed env c size slot (files opts) ->
  (forall tr' uploaded,
     CompleteUploadExternal c tr' uploaded channelID (threadTS opts) text
     = None) ->
  uploadFiles env c channelID text opts tr
  = (Ok tt,
     tr ++ concat (map (upload_events env size slot) (files opts)) ++
     [EvCompleteUploadExternal
        (map (upload_handle env opts slot) (files opts))
        channelID (threadTS opts) text;
      upload_report (length (files opts)) channelID]).
Proof.
  intros Hall Hdone. unfold uploadFiles.
  rewrite (run_bind_ok _ _ _ _ _
             (uploadFiles_loop_success env c opts size slot (files opts)
                Hall [] tr)).
  cbn [app]. rewrite run_call_bind, Hdone. cbn beta iota.
  rewrite length_map. unfold upload_report, call.
  destruct (length (files opts) =? 1); by rewrite <- !app_assoc.
Qed.


Lemma uploadFiles_all_succeed_witness :
  uploadFiles (demo_env [] disk_with_a_b) demo_client "C123456789" "Here"
    two_good_files []
  = (Ok tt,
     [] ++
     concat (map (upload_events (demo_env [] disk_with_a_b) demo_size
                    demo_slot) (files two_good_files)) ++
     [EvCompleteUploadExternal
        (map (upload_handle (demo_env [] disk_with_a_b) two_good_files
                demo_slot) (files two_good_files))
        "C123456789" (threadTS two_good_files) "Here";
      upload_report (length (files two_good_files)) "C123456789"]).
Proof.
  apply (uploadFiles_all_succeed (demo_env [] disk_with_a_b) demo_client
           "C123456789" "Here" two_good_files demo_size demo_slot []).
  - intros path tr Hin.
    apply elem_of_cons in Hin as [-> | Hin]; [by repeat split |].
    apply elem_of_cons in Hin as [-> | Hin]; [by repeat split |].
    by apply elem_of_nil in Hin.
  - reflexivity.
Defined.

Lemma uploadFiles_loop_stops (env : Env) (c : Client) (opts : sendOptions)
  (pre post : list string) (b : string) :
  (forall tr, exists e, os_Stat env tr b = Err e) ->
  forall (uploaded : list CompleteUploadExternalFile) (tr : Trace),
  exists (e : error) (tr' : Trace),
    uploadFiles_loop env c opts (pre ++ b :: post) uploaded tr = (Err e, tr')
    /\
    uploadFiles_loop env c opts (pre ++ [b]) uploaded tr = (Err e, tr').
Proof.
  intros Hmissing. induction pre as [|path pre IH]; intros uploaded tr.
  - destruct (Hmissing tr) as [e He].
    exists ("cannot access file " +:+ b +:+ ": " +:+ e), (tr ++ [EvStat b]).
    cbn [app uploadFiles_loop]. by rewrite !run_call_bind, He.
  - cbn [app uploadFiles_loop].
    unfold mbind, Exec_bind, call, fail.
    repeat case_match; simplify_eq; eauto.
Qed.

Lemma uploadFiles_loop_title (env : Env) (c : Client)
  (opts1 opts2 : sendOptions) (todo : list string) :
  fileTitle opts1 = fileTitle opts2 ->
  forall (uploaded : list CompleteUploadExternalFile) (tr : Trace),
    uploadFiles_loop env c opts1 todo uploaded tr
    = uploadFiles_loop env c opts2 todo uploaded tr.
Proof.
  intros Htitle. induction todo as [|path todo IH]; intros uploaded tr;
    [done |].
  cbn [uploadFiles_loop]. rewrite Htitle.
  unfold mbind, Exec_bind, call, fail.
  repeat case_match; simplify_eq; done.
Qed.

(** X14. A path that cannot be stat'ed ends the batch: the files listed
    behind it are never touched, so the run is the same, event for event and
    with the same error, as if the list ended there. *)
Theorem uploadFiles_stops_at_unreadable (env : Env) (c : Client)
  (channelID text : string) (opts : sendOptions) (pre post : list string)
  (b : string) (tr : Trace) :
  (forall tr', exists e, os_Stat env tr' b = Err e) ->
  uploadFiles env c channelID text (with_files opts (pre ++ b :: post)) tr
  = uploadFiles env c channelID text (with_files opts (pre ++ [b])) tr /\
  exists e : error,
    fst (uploadFiles env c channelID text
           (with_files opts (pre ++ b :: post)) tr) = Err e.
Proof.
  intros Hmissing. unfold uploadFiles.
  cbn [files with_files].
  destruct (uploadFiles_loop_stops env c (with_files opts (pre ++ [b]))
              pre post b Hmissing [] tr) as (e & tr' & E1 & E2).
  assert (uploadFiles_loop env c (with_files opts (pre ++ b :: post))
            (pre ++ b :: post) [] tr = (Err e, tr')) as E1'.
  { rewrite <- E1. by apply uploadFiles_loop_title. }
  unfold mbind, Exec_bind. rewrite E1', E2. split; [done | by exists e].
Qed.

Lemma uploadFiles_stops_at_unreadable_witness :
  uploadFiles (demo_env [] disk_with_a_b) demo_client "C123456789" ""
    (with_files two_good_files
       (["/tmp/a.csv"] ++ "/nonexistent/file.txt" :: ["/tmp/b.csv"])) []
  = uploadFiles (demo_env [] disk_with_a_b) demo_client "C123456789" ""
      (with_files two_good_files (["/tmp/a.csv"] ++ ["/nonexistent/file.txt"]))
      [] /\
  exists e : error,
    fst (uploadFiles (demo_env [] disk_with_a_b) demo_client "C123456789" ""
           (with_files two_good_files
              (["/tmp/a.csv"] ++ "/nonexistent/file.txt" :: ["/tmp/b.csv"]))
           []) = Err e.
Proof.
  apply (uploadFiles_stops_at_unreadable (demo_env [] disk_with_a_b)
           demo_client "C123456789" "" two_good_files ["/tmp/a.csv"]
           ["/tmp/b.csv"] "/nonexistent/file.txt" []).
  intros tr. eexists. reflexivity.
Defined.

Lemma uploadFiles_loop_counts (env : Env) (c : Client) (opts : sendOptions)
  (P : Event -> Prop) (todo : list string) :
  (forall ev, upload_step ev -> P ev) ->
  forall uploaded : list CompleteUploadExternalFile,
    emits P (fun all => length all = length uploaded + length todo)
      (uploadFiles_loop env c opts todo uploaded).
Proof.
  intros HP. induction todo as [|path todo IH]; intros uploaded.
  - apply emits_ret. simpl. lia.
  - cbn [uploadFiles_loop].
    apply (emits_bind _ any); [apply emits_call; [by apply HP | done] |].
    intros [size | e] _; [| apply emits_fail].
    apply (emits_bind _ any); [apply emits_call; [by apply HP | done] |].
    intros _ _.
    apply (emits_bind _ any); [apply emits_call; [by apply HP | done] |].
    intros [resp | e] _; [| apply emits_fail].
    apply (emits_bind _ any); [apply emits_call; [by apply HP | done] |].
    intros [e |] _; [apply emits_fail |].
    apply (emits_bind _ any); [apply emits_call; [by apply HP | done] |].
    intros [e |] _; [apply emits_fail |].
    intros tr. destruct (IH (uploaded ++
      [{| cue_ID := FileID resp;
          cue_Title := if nonempty (fileTitle opts) then fileTitle opts
                       else filepath_Base env path |}]) tr)
      as (new & E & F & Q).
    exists new. split; [done |]. split; [done |].
    intros all Hall. rewrite (Q all Hall), length_app. simpl. lia.
Qed.

(** X15. Whatever happens, [uploadFiles] sends no chat message, and a
    finalize call, if one is made, names as many files as were requested,
    the channel it was given and the text as comment: files are never
    shared in part. *)
Theorem uploadFiles_finalizes_whole_batch (env : Env) (c : Client)
  (channelID text : string) (opts : sendOptions) :
  emits (finalizes (length (files opts)) channelID text) any
    (uploadFiles env c channelID text opts).
Proof.
  unfold uploadFiles.
  apply (emits_bind _ (fun all => length all = length (files opts))).
  - apply (uploadFiles_loop_counts env c opts _ (files opts)); by intros [].
  - intros uploaded Hlen.
    apply (emits_bind _ any); [by apply emits_call |].
    intros [e |] _; [apply emits_fail |].
    destruct (length uploaded =? 1); by apply emits_call.
Qed.

End UploadMore.

(** ** The user resolver: what the cache holds *)

Section ResolverMore.

Lemma first_nonempty_fallback (candidates : list string) (u : string) :
  u <> "" -> first_nonempty candidates u <> "".
Proof.
  intros Hu. induction candidates as [|s candidates IH]; [done |].
  simpl. by destruct (decide (s = "")).
Qed.

(** X16. [Resolve] only ever adds to the cache: an entry, once made, is
    never changed or dropped, and the client stays the same. *)
Theorem Resolve_cache_grows (u : string) (r : UserResolver) (tr : Trace) :
  cache r ⊆ cache (fst (snd (Resolve u (r, tr)))) /\
  r_client (fst (snd (Resolve u (r, tr)))) = r_client r.
Proof.
  destruct (Resolve_cases r tr u)
    as [[_ ->] | [(_ & name & _ & ->) |
        [(_ & _ & e & _ & ->) | (_ & Hmiss & user & _ & ->)]]];
    cbn [fst snd cache r_client]; try done.
  split; [| done]. by apply insert_subseteq.
Qed.

(** X17. A successful lookup is remembered: after [Resolve] has looked an
    ID up and got a record, the name it returned is cached under the ID, and
    a second [Resolve] for the ID returns the same name, leaves the resolver
    as it is and calls nothing. *)
Theorem Resolve_twice (r : UserResolver) (tr : Trace) (u : string)
  (user : User) :
  u <> "" -> cache r !! u = None ->
  GetUserInfo (r_client r) tr u = Ok user ->
  cache (fst (snd (Resolve u (r, tr)))) !! u
  = Some (fst (Resolve u (r, tr))) /\
  Resolve u (snd (Resolve u (r, tr)))
  = (fst (Resolve u (r, tr)), snd (Resolve u (r, tr))).
Proof.
  intros Hu Hmiss Hok.
  rewrite (Resolve_miss_success r tr u user Hu Hmiss Hok).
  cbn [fst snd cache]. split; [by apply lookup_insert_eq |].
  apply Resolve_hit; [done |]. by apply lookup_insert_eq.
Qed.

Lemma Resolve_twice_witness :
  cache (fst (snd (Resolve "U001" (NewUserResolver demo_client, [])))) !! "U001"
  = Some (fst (Resolve "U001" (NewUserResolver demo_client, []))) /\
  Resolve "U001" (snd (Resolve "U001" (NewUserResolver demo_client, [])))
  = (fst (Resolve "U001" (NewUserResolver demo_client, [])),
     snd (Resolve "U001" (NewUserResolver demo_client, []))).
Proof.
  apply (Resolve_twice (NewUserResolver demo_client) [] "U001"
           (demo_user "U001" "alice")).
  - discriminate.
  - reflexivity.
  - reflexivity.
Defined.

Lemma Resolve_keeps_sound (u : string) (st : UserResolver * Trace) :
  cache_sound st -> cache_sound (snd (Resolve u st)).
Proof.
  destruct st as [r tr]. intros Hsound.
  destruct (Resolve_cases r tr u)
    as [[_ ->] | [(_ & name & _ & ->) |
        [(_ & _ & e & _ & ->) | (Hu & Hmiss & user & _ & ->)]]];
    try done.
  intros v name. cbn [fst snd cache].
  destruct (decide (u = v)) as [<- | Hne].
  - rewrite lookup_insert_eq. intros E. apply (inj Some) in E. subst name.
    split; [done | by apply first_nonempty_fallback].
  - rewrite lookup_insert_ne by done. apply Hsound.
Qed.

Lemma Resolve_sound_name (u : string) (st : UserResolver * Trace) :
  cache_sound st -> u <> "" -> fst (Resolve u st) <> "".
Proof.
  destruct st as [r tr]. intros Hsound Hu.
  destruct (Resolve_cases r tr u)
    as [[-> _] | [(_ & name & Hhit & ->) |
        [(_ & _ & e & _ & ->) | (_ & _ & user & _ & ->)]]];
    cbn [fst]; try done.
  - by destruct (Hsound u name Hhit).
  - by apply first_nonempty_fallback.
Qed.

Lemma resolve_all_keeps_sound (ids : list string) :
  forall st : UserResolver * Trace,
    cache_sound st -> cache_sound (snd (resolve_all ids st)).
Proof.
  induction ids as [|id ids IH]; intros st Hsound; [done |].
  cbn [resolve_all]. unfold mbind, mret, Method_bind, Method_ret.
  pose proof (Resolve_keeps_sound id st Hsound) as H1.
  destruct (Resolve id st) as [name st1]. simpl in H1.
  specialize (IH st1 H1).
  by destruct (resolve_all ids st1) as [names st2].
Qed.

(** X18. On a resolver that started empty, whatever IDs have been resolved
    before, [Resolve] returns a non-empty name for a non-empty ID: a record
    without any name gives the ID, and an empty name is never cached. *)
Theorem Resolve_name_not_empty (c : Client) (ids : list string) (u : string) :
  u <> "" ->
  fst (Resolve u (snd (resolve_all ids (NewUserResolver c, [])))) <> "".
Proof.
  intros Hu. apply Resolve_sound_name; [| done].
  apply resolve_all_keeps_sound. intros v name. cbn.
  by rewrite lookup_empty.
Qed.

Lemma Resolve_name_not_empty_witness :
  fst (Resolve "U999"
         (snd (resolve_all ["U001"; "U999"] (NewUserResolver demo_client, []))))
  <> "".
Proof.
  apply (Resolve_name_not_empty demo_client ["U001"; "U999"] "U999").
  discriminate.
Defined.


(** [ResolveMentions] is a sequence of [Resolve] calls, one per mention. *)
Lemma ResolveMentions_as_cut (text : string) :
  exists (parts : list (string * string)) (last : string),
    well_cut parts last /\ text = with_mentions parts last /\
    forall st, ResolveMentions text st = with_names parts last st.
Proof.
  destruct (cut_exists (String.length text) text (le_n _))
    as (parts & last & Hcut & ->).
  exists parts, last. split; [done |]. split; [done |].
  intros st. unfold ResolveMentions.
  apply replace_well_cut; [done | apply well_cut_length].
Qed.

Lemma with_names_keeps (I : UserResolver * Trace -> Prop) :
  (forall u st, I st -> I (snd (Resolve u st))) ->
  forall parts last st, I st -> I (snd (with_names parts last st)).
Proof.
  intros Hstep parts last.
  induction parts as [|[plain id] parts IH]; intros st Hst; [done |].
  cbn [with_names]. unfold mbind, mret, Method_bind, Method_ret.
  pose proof (Hstep id st Hst) as H1.
  destruct (Resolve id st) as [name st1]. simpl in H1.
  specialize (IH st1 H1).
  by destruct (with_names parts last st1) as [out st2].
Qed.

Lemma ResolveMentions_keeps (I : UserResolver * Trace -> Prop) :
  (forall u st, I st -> I (snd (Resolve u st))) ->
  forall text st, I st -> I (snd (ResolveMentions text st)).
Proof.
  intros Hstep text st Hst.
  destruct (ResolveMentions_as_cut text) as (parts & last & _ & _ & ->).
  by apply with_names_keeps.
Qed.

Lemma mention_occurs (parts : list (string * string)) (last : string)
  (plain id : string) :
  (plain, id) ∈ parts -> occurs_in (mention id) (with_mentions parts last).
Proof.
  induction parts as [|[p i] parts IH]; intros Hin.
  - by apply elem_of_nil in Hin.
  - apply elem_of_cons in Hin as [[= <- <-] | Hin].
    + by exists plain, (with_mentions parts last).
    + destruct (IH Hin) as (pre & post & E).
      exists (p +:+ mention i +:+ pre), post.
      cbn [with_mentions]. by rewrite E, !str_app_assoc.
Qed.

Lemma Resolve_events (u : string) (st : UserResolver * Trace) :
  snd (snd (Resolve u st)) = snd st \/
  exists answer, snd (snd (Resolve u st))
                 = snd st ++ [EvGetUserInfo u answer].
Proof.
  destruct st as [r tr].
  destruct (Resolve_cases r tr u)
    as [[_ ->] | [(_ & name & _ & ->) |
        [(_ & _ & e & _ & ->) | (_ & _ & user & _ & ->)]]];
    cbn [fst snd]; eauto.
Qed.

Lemma with_names_events (parts : list (string * string)) (last : string) :
  forall st : UserResolver * Trace,
  exists new : list Event,
    snd (snd (with_names parts last st)) = snd st ++ new /\
    Forall (fun ev => exists plain id answer,
                        ev = EvGetUserInfo id answer /\ (plain, id) ∈ parts)
      new.
Proof.
  induction parts as [|[plain id] parts IH]; intros st.
  - exists []. by rewrite app_nil_r.
  - cbn [with_names]. unfold mbind, mret, Method_bind, Method_ret.
    pose proof (Resolve_events id st) as H1.
    destruct (Resolve id st) as [name st1]. cbn [snd] in H1.
    destruct (IH st1) as (new & E & F).
    destruct (with_names parts last st1) as [out st2]. cbn [snd] in E |- *.
    assert (Forall (fun ev => exists plain0 id0 answer,
                      ev = EvGetUserInfo id0 answer /\
                      (plain0, id0) ∈ (plain, id) :: parts) new) as F'.
    { eapply Forall_impl; [exact F |].
      intros ev (p & i & a & -> & Hin). exists p, i, a.
      split; [done |]. apply elem_of_cons. by right. }
    destruct H1 as [H1 | [answer H1]]; rewrite E, H1.
    + by exists new.
    + exists (EvGetUserInfo id answer :: new).
      rewrite <- app_assoc. split; [done |].
      constructor; [| done]. exists plain, id, answer.
      split; [done |]. apply elem_of_cons. by left.
Qed.

(** X19. [ResolveMentions] calls nothing but the user lookup, and only for
    IDs that are mentioned in the text: a text without a mention costs no
    call. *)
Theorem ResolveMentions_looks_up_mentioned (text : string)
  (st : UserResolver * Trace) :
  exists new : list Event,
    snd (snd (ResolveMentions text st)) = snd st ++ new /\
    Forall (looks_up_mentioned text) new.
Proof.
  destruct (ResolveMentions_as_cut text)
    as (parts & last & [Hparts _] & Etext & ->).
  destruct (with_names_events parts last st) as (new & E & F).
  exists new. split; [done |].
  eapply Forall_impl; [exact F |].
  intros ev (plain & id & answer & -> & Hin).
  exists id, answer. split; [done |]. split.
  - rewrite Forall_forall in Hparts. by destruct (Hparts _ Hin).
  - rewrite Etext. by apply (mention_occurs parts last plain).
Qed.

Lemma resolve_mentions_all_keeps (I : UserResolver * Trace -> Prop) :
  (forall u st, I st -> I (snd (Resolve u st))) ->
  forall texts st, I st -> I (snd (resolve_mentions_all texts st)).
Proof.
  intros Hstep texts.
  induction texts as [|text texts IH]; intros st Hst; [done |].
  cbn [resolve_mentions_all]. unfold mbind, mret, Method_bind, Method_ret.
  pose proof (ResolveMentions_keeps I Hstep text st Hst) as H1.
  destruct (ResolveMentions text st) as [out st1]. simpl in H1.
  specialize (IH st1 H1).
  by destruct (resolve_mentions_all texts st1) as [outs st2].
Qed.

(** X20. Rewriting the mentions of any number of texts on one new resolver
    looks each user up successfully at most once, however often the user is
    mentioned: the lookups for an ID are failed ones followed, when the ID
    has been cached, by one successful one. *)
Theorem ResolveMentions_lookups_once (c : Client) (texts : list string)
  (u : string) :
  exists k : nat,
    lookups_of u
      (snd (snd (resolve_mentions_all texts (NewUserResolver c, []))))
    = replicate k false ++
      match cache (fst (snd (resolve_mentions_all texts
                               (NewUserResolver c, [])))) !! u
      with
      | Some _ => [true]
      | None => []
      end.
Proof.
  revert u.
  apply (resolve_mentions_all_keeps lookups_match_cache
           Resolve_keeps_invariant texts (NewUserResolver c, [])).
  intros u. by exists 0.
Qed.

End ResolverMore.

(** ** Package output *)

Section Output.

Lemma widen_row_lookup (row : list string) :
  forall (widths : list nat) (i0 j : nat),
    widen_row widths i0 row !! j
    = match widths !! j with
      | None => None
      | Some w =>
        Some (if decide (i0 <= j)
              then match row !! (j - i0) with
                   | Some cell => Nat.max w (String.length cell)
                   | None => w
                   end
              else w)
      end.
Proof.
  induction row as [|cell row IH]; intros widths i0 j.
  - cbn [widen_row]. destruct (widths !! j); [| done].
    by destruct (decide (i0 <= j)).
  - cbn [widen_row]. rewrite IH.
    assert ((match widths !! i0 with
             | Some w =>
               if w <? String.length cell
               then <[i0 := String.length cell]> widths
               else widths
             | None => widths
             end) !! j
            = match widths !! j with
              | None => None
              | Some w =>
                Some (if decide (j = i0)
                      then Nat.max w (String.length cell) else w)
              end) as ->.
    { destruct (widths !! i0) as [w0 |] eqn:H0.
      - destruct (Nat.ltb_spec w0 (String.length cell)).
        + destruct (decide (j = i0)) as [-> | Hne].
          * rewrite list_lookup_insert_eq by (by eapply lookup_lt_Some).
            rewrite H0. f_equal. lia.
          * rewrite list_lookup_insert_ne by done.
            by destruct (widths !! j).
        + destruct (widths !! j) as [w |] eqn:Hj; [| done].
          destruct (decide (j = i0)) as [-> | Hne]; [| done].
          rewrite H0 in Hj. injection Hj as ->. f_equal. lia.
      - destruct (widths !! j) as [w |] eqn:Hj; [| done].
        destruct (decide (j = i0)) as [-> | Hne]; [congruence | done]. }
    destruct (widths !! j) as [w |]; [| done]. f_equal.
    destruct (decide (j = i0)) as [-> | Hne].
    + destruct (decide (S i0 <= i0)); [lia |].
      destruct (decide (i0 <= i0)); [| lia].
      by rewrite Nat.sub_diag.
    + destruct (decide (S i0 <= j)), (decide (i0 <= j)); try lia; try done.
      by replace (j - i0) with (S (j - S i0)) by lia.
Qed.

Lemma column_widths_lookup (rows : list (list string)) :
  forall (widths : list nat) (i : nat),
    fold_left (fun widths row => widen_row widths 0 row) rows widths !! i
    = widest i rows <$> widths !! i.
Proof.
  induction rows as [|row rows IH]; intros widths i.
  - cbn. by destruct (widths !! i).
  - cbn [fold_left]. rewrite IH, widen_row_lookup.
    destruct (widths !! i) as [w |]; [| done]. cbn.
    destruct (decide (0 <= i)); [| lia]. by rewrite Nat.sub_0_r.
Qed.

Lemma widest_cons (i : nat) (row : list string) (rows : list (list string))
  (w : nat) :
  widest i (row :: rows) w
  = widest i rows (match row !! i with
                   | Some cell => Nat.max w (String.length cell)
                   | None => w
                   end).
Proof. reflexivity. Qed.

Lemma widest_spec (i : nat) (rows : list (list string)) :
  forall w : nat,
    w <= widest i rows w /\
    (forall row cell,
       row ∈ rows -> row !! i = Some cell ->
       String.length cell <= widest i rows w) /\
    (widest i rows w = w \/
     exists row cell,
       row ∈ rows /\ row !! i = Some cell /\
       widest i rows w = String.length cell).
Proof.
  induction rows as [|row rows IH]; intros w.
  - cbn. split; [lia |]. split; [| by left].
    intros row cell Hin. by apply elem_of_nil in Hin.
  - rewrite widest_cons.
    set (w1 := match row !! i with
               | Some cell => Nat.max w (String.length cell)
               | None => w
               end).
    destruct (IH w1) as (Hge & Hcells & Htight).
    assert (w <= w1) as Hw by (subst w1; destruct (row !! i); lia).
    split; [lia |]. split.
    + intros row' cell Hin Hcell.
      apply elem_of_cons in Hin as [-> | Hin]; [| by eapply Hcells].
      subst w1. rewrite Hcell in Hge |- *. lia.
    + destruct Htight as [Heq | (row' & cell & Hin & Hcell & Heq)].
      * subst w1. destruct (row !! i) as [cell |] eqn:Hcell; [| by left].
        destruct (Nat.max_spec w (String.length cell)) as [[_ Hm] | [_ Hm]];
          rewrite Hm in Heq |- *.
        -- right. exists row, cell.
           split; [apply elem_of_cons; by left |]. by split.
        -- by left.
      * right. exists row', cell.
        split; [apply elem_of_cons; by right |]. by split.
Qed.

Lemma Table_column_widths_aux (headers : list string)
  (rows : list (list string)) :
  length (column_widths headers rows) = length headers /\
  forall i, column_widths headers rows !! i
            = widest i rows <$> (String.length <$> headers !! i).
Proof.
  assert (forall i, column_widths headers rows !! i
                    = widest i rows <$> (String.length <$> headers !! i))
    as Hlookup.
  { intros j. unfold column_widths.
    by rewrite column_widths_lookup, list_lookup_fmap. }
  split; [| done].
  apply Nat.le_antisymm.
  - destruct (decide (length (column_widths headers rows)
                      <= length headers)) as [| Hgt]; [done |].
    assert (is_Some (column_widths headers rows !! length headers))
      as [w Hw] by (apply lookup_lt_is_Some; lia).
    rewrite Hlookup, lookup_ge_None_2 in Hw by lia. done.
  - destruct (decide (length headers
                      <= length (column_widths headers rows)))
      as [| Hgt]; [done |].
    assert (is_Some (headers !! length (column_widths headers rows)))
      as [h Hh] by (apply lookup_lt_is_Some; lia).
    pose proof (Hlookup (length (column_widths headers rows))) as E.
    rewrite Hh, lookup_ge_None_2 in E by lia. done.
Qed.

(** X21. [Table] makes every column exactly as wide as its widest entry:
    the width of a column is at least the length of its header and of every
    cell that a row has in it, and it is the length of one of them; there is
    one width per header, so cells beyond the last header count for
    nothing. *)
Theorem Table_column_widths (headers : list string)
  (rows : list (list string)) (i : nat) (header : string) :
  headers !! i = Some header ->
  length (column_widths headers rows) = length headers /\
  exists w : nat,
    column_widths headers rows !! i = Some w /\
    String.length header <= w /\
    (forall row cell,
       row ∈ rows -> row !! i = Some cell -> String.length cell <= w) /\
    (w = String.length header \/
     exists row cell,
       row ∈ rows /\ row !! i = Some cell /\ w = String.length cell).
Proof.
  intros Hheader.
  destruct (Table_column_widths_aux headers rows) as [Hlen Hlookup].
  split; [done |].
  exists (widest i rows (String.length header)).
  rewrite Hlookup, Hheader. split; [done |].
  apply widest_spec.
Qed.

Lemma Table_column_widths_witness :
  length (column_widths ["ID"; "NAME"] [["C111111"; "general"; "x"]; ["C2"]])
  = length ["ID"; "NAME"] /\
  exists w : nat,
    column_widths ["ID"; "NAME"] [["C111111"; "general"; "x"]; ["C2"]] !! 1
    = Some w /\
    String.length "NAME" <= w /\
    (forall row cell,
       row ∈ [["C111111"; "general"; "x"]; ["C2"]] ->
       row !! 1 = Some cell -> String.length cell <= w) /\
    (w = String.length "NAME" \/
     exists row cell,
       row ∈ [["C111111"; "general"; "x"]; ["C2"]] /\
       row !! 1 = Some cell /\ w = String.length cell).
Proof.
  apply (Table_column_widths ["ID"; "NAME"]
           [["C111111"; "general"; "x"]; ["C2"]] 1 "NAME").
  reflexivity.
Defined.





(** X23. [ParseFormat] returns one of the formats that [ValidFormats]
    lists, whatever it is given; it reports an error exactly when the input
    in lower case is none of "text", "json", "table" and not empty, and
    returns "text" beside the error.  As lower-casing leaves the three names
    as they are, each of them is parsed to itself. *)
Theorem ParseFormat_valid (ToLower Quote : string -> string) (s : string) :
  fst (ParseFormat ToLower Quote s) ∈ ValidFormats /\
  (snd (ParseFormat ToLower Quote s) = None <->
   ToLower s ∈ ["text"; ""; "json"; "table"]) /\
  (snd (ParseFormat ToLower Quote s) <> None ->
   fst (ParseFormat ToLower Quote s) = FormatText) /\
  (ToLower s = s -> s ∈ ValidFormats ->
   ParseFormat ToLower Quote s = (s, None)).
Proof.
  unfold ParseFormat, ValidFormats, FormatText, FormatJSON, FormatTable.
  destruct (decide (ToLower s = "text")) as [E1 | N1],
           (decide (ToLower s = "")) as [E2 | N2],
           (decide (ToLower s = "json")) as [E3 | N3],
           (decide (ToLower s = "table")) as [E4 | N4];
    try congruence;
    rewrite ?(bool_decide_eq_true_2 _ E1), ?(bool_decide_eq_false_2 _ N1),
      ?(bool_decide_eq_true_2 _ E2), ?(bool_decide_eq_false_2 _ N2),
      ?(bool_decide_eq_true_2 _ E3), ?(bool_decide_eq_false_2 _ N3),
      ?(bool_decide_eq_true_2 _ E4), ?(bool_decide_eq_false_2 _ N4);
    cbn [orb fst snd];
    rewrite !elem_of_cons, !elem_of_nil;
    (split; [auto |]);
    (split; [split; [intros H; first [done | auto]
                    | intros H; first [done | intuition congruence]] |]);
    (split; [done |]);
    intros E Hin;
    first [ by rewrite <- E, E1 | by rewrite <- E, E3 | by rewrite <- E, E4
          | intuition congruence ].
Qed.

Lemma ParseFormat_valid_witness :
  ParseFormat ascii_ToLower (fun s => s) "json" = ("json", None).
Proof.
  apply (proj2 (proj2 (proj2
           (ParseFormat_valid ascii_ToLower (fun s => s) "json")))).
  - reflexivity.
  - apply elem_of_cons. right. apply elem_of_cons. by left.
Defined.

End Output.

(** ** The archive and reaction commands *)

Section Commands.
Import commands.

Lemma cmd_ret_bind {A B : Type} (a : A) (f : A -> Cmd B) (past : History) :
  (mret a ≫= f) past = f a past.
Proof. reflexivity. Qed.

Lemma cmd_perform_bind {A B : Type} (s : Step) (oracle : History -> A)
  (f : A -> Cmd B) (past : History) :
  (perform s oracle ≫= f) past = f (oracle past) (past ++ [s]).
Proof. reflexivity. Qed.

Lemma cmd_bind_ok {A B : Type} (m : Cmd A) (f : A -> Cmd B)
  (past past' : History) (a : A) :
  m past = (Ok a, past') -> (m ≫= f) past = f a past'.
Proof. intros H. unfold mbind, Cmd_bind. by rewrite H. Qed.

Lemma cmd_bind_err {A B : Type} (m : Cmd A) (f : A -> Cmd B)
  (past past' : History) (e : error) :
  m past = (Err e, past') -> (m ≫= f) past = (Err e, past').
Proof. intros H. unfold mbind, Cmd_bind. by rewrite H. Qed.

(** A program that extends the trace it sees extends the history by the
    same events. *)
Lemma core_run {A : Type} (m : Exec A) (past : History) (r : result A)
  (new : list Event) :
  m (core_events past) = (r, core_events past ++ new) ->
  core m past = (r, past ++ map Core new).
Proof.
  intros H. unfold core. cbn zeta. rewrite H.
  by rewrite drop_app_length.
Qed.

Lemma confirmation_run (h : Host) (channel : string) (opts : archiveOptions)
  (c : option Platform) (past : History) :
  force opts = false ->
  runArchive h channel opts c past =
  match confirmation_reader h opts
          (past ++ prompt channel) with
  | Some text =>
    if negb (bool_decide (normalized h text = "y"))
       && negb (bool_decide (normalized h text = "yes"))
    then (Ok tt, past ++ confirmation channel ++ [Println "Cancelled."])
    else runArchive_confirmed h channel c (past ++ confirmation channel)
  | None => runArchive_confirmed h channel c (past ++ confirmation channel)
  end.
Proof.
  intros Hforce. unfold runArchive. rewrite Hforce. cbn [negb].
  unfold Printf. rewrite !cmd_perform_bind.
  unfold confirmation, prompt, confirmation_reader, normalized.
  replace (default (os_Stdin h) (stdin opts))
    with (match stdin opts with Some reader => reader | None => os_Stdin h end)
    by by destruct (stdin opts).
  rewrite <- !app_assoc. cbn [app].
  destruct (match stdin opts with Some r => r | None => os_Stdin h end _)
    as [text |]; [| done].
  destruct (negb _ && negb _); [| done].
  unfold perform. by rewrite <- app_assoc.
Qed.

(** *** strings.Trim *)








(** X24. Without [--force], an answer that is neither "y" nor "yes" once
    put in lower case and trimmed cancels the command: after the prompt and
    the read, "Cancelled." is printed, the command returns without an
    error, and no client is created and no platform call is made. *)
Theorem runArchive_cancelled (h : Host) (channel text : string)
  (opts : archiveOptions) (c : option Platform) (past : History) :
  force opts = false ->
  confirmation_reader h opts (past ++ prompt channel)
    = Some text ->
  normalized h text <> "y" -> normalized h text <> "yes" ->
  runArchive h channel opts c past =
  (Ok tt, past ++ confirmation channel ++ [Println "Cancelled."]).
Proof.
  intros Hforce Hread Hy Hyes.
  rewrite confirmation_run by done.
  rewrite Hread.
  by rewrite !bool_decide_eq_false_2.
Qed.

Lemma runArchive_cancelled_witness :
  runArchive (demo_host (Some "No")) "#general" ask_first None [] =
  (Ok tt, confirmation "#general" ++ [Println "Cancelled."]).
Proof.
  apply (runArchive_cancelled (demo_host (Some "No")) "#general" "No"
           ask_first None []); [reflexivity | reflexivity | | ];
    vm_compute; discriminate.
Defined.

(** X25. Without [--force], when the read of the answer yields nothing
    (standard input is at its end, or the read fails), the command is not
    cancelled: after the prompt it goes on exactly as with [--force]. *)
Theorem runArchive_end_of_input (h : Host) (channel : string)
  (opts : archiveOptions) (c : option Platform) (past : History) :
  force opts = false ->
  confirmation_reader h opts (past ++ prompt channel) = None ->
  runArchive h channel opts c past =
  runArchive h channel (forced opts) c (past ++ confirmation channel).
Proof.
  intros Hforce Hread.
  rewrite confirmation_run by done.
  by rewrite Hread.
Qed.

Lemma runArchive_end_of_input_witness :
  runArchive (demo_host None) "general" ask_first None [] =
  runArchive (demo_host None) "general" (forced ask_first) None
    (confirmation "general").
Proof.
  by apply (runArchive_end_of_input (demo_host None) "general" ask_first
              None []).
Defined.

(** X26. Without [--force], an answer that is "y" or "yes" once put in
    lower case and trimmed confirms: after the prompt the command goes on
    exactly as with [--force]. *)
Theorem runArchive_confirmed_by_yes (h : Host) (channel text : string)
  (opts : archiveOptions) (c : option Platform) (past : History) :
  force opts = false ->
  confirmation_reader h opts (past ++ prompt channel)
    = Some text ->
  normalized h text = "y" \/ normalized h text = "yes" ->
  runArchive h channel opts c past =
  runArchive h channel (forced opts) c (past ++ confirmation channel).
Proof.
  intros Hforce Hread Hyes.
  rewrite confirmation_run by done.
  rewrite Hread.
  by destruct Hyes as [-> | ->].
Qed.

Lemma runArchive_confirmed_by_yes_witness :
  runArchive (demo_host (Some " YES ")) "general" ask_first None [] =
  runArchive (demo_host (Some " YES ")) "general" (forced ask_first) None
    (confirmation "general").
Proof.
  apply (runArchive_confirmed_by_yes (demo_host (Some " YES ")) "general"
           " YES " ask_first None []); [reflexivity | reflexivity |].
  right. vm_compute. reflexivity.
Defined.

(** X27. With [--force] and a client, a channel that resolves to an ID is
    archived by one call on that ID, with no prompt and no read; the
    success line and the wrapped error both name the channel as it was
    typed, not the ID. *)
Theorem runArchive_archives_resolved (h : Host) (p : Platform)
  (channel channelID : string) (opts : archiveOptions) (past : History)
  (new : list Event) :
  force opts = true ->
  ResolveChannel (host_env h) (api p) channel (core_events past)
    = (Ok channelID, core_events past ++ new) ->
  runArchive h channel opts (Some p) past =
  archive_outcome h p channel channelID (past ++ map Core new).
Proof.
  intros Hforce Hres. unfold runArchive. rewrite Hforce. cbn [negb].
  unfold runArchive_confirmed, connect. rewrite cmd_ret_bind.
  rewrite (cmd_bind_ok _ _ _ _ _ (core_run _ _ _ _ Hres)).
  rewrite cmd_perform_bind. unfold archive_outcome.
  destruct (ArchiveChannel p _ channelID); [done |].
  unfold Printf, perform. by rewrite <- app_assoc.
Qed.

Lemma runArchive_archives_resolved_witness :
  runArchive (demo_host None) "#General" (forced ask_first)
    (Some demo_platform) [] =
  (Ok tt,
   [Core listing_call; CallArchiveChannel "C111111";
    Core (EvPrintf ("Archived channel: %s" +:+ newline) [AStr "#General"])]).
Proof.
  apply (runArchive_archives_resolved (demo_host None) demo_platform
           "#General" "C111111" (forced ask_first) [] [listing_call]);
    [reflexivity | vm_compute; reflexivity].
Defined.

(** X28. With [--force] and a client, when the channel does not resolve
    the command returns the resolver's error as it is and never calls
    the archive method. *)
Theorem runArchive_unresolved (h : Host) (p : Platform)
  (channel : string) (e : error) (opts : archiveOptions) (past : History)
  (new : list Event) :
  force opts = true ->
  ResolveChannel (host_env h) (api p) channel (core_events past)
    = (Err e, core_events past ++ new) ->
  runArchive h channel opts (Some p) past = (Err e, past ++ map Core new).
Proof.
  intros Hforce Hres. unfold runArchive. rewrite Hforce. cbn [negb].
  unfold runArchive_confirmed, connect. rewrite cmd_ret_bind.
  by rewrite (cmd_bind_err _ _ _ _ _ (core_run _ _ _ _ Hres)).
Qed.

Lemma runArchive_unresolved_witness :
  runArchive (demo_host None) "#" (forced ask_first) (Some demo_platform) [] =
  (Err "channel cannot be empty", []).
Proof.
  apply (runArchive_unresolved (demo_host None) demo_platform "#"
           "channel cannot be empty" (forced ask_first) [] []);
    reflexivity.
Defined.



End Commands.
